(** * XYZgeomag: spherical-harmonic synthesis of the geomagnetic field

    A shallow embedding of [geomag.hpp] (namespace [geomag]): the packed
    coefficient store [ConstModel] with its time-corrected lookups [C] and
    [S], and the streaming synthesizer [GeoMag].

    Conventions of the embedding.
    - [float] is IEEE-754 binary32.  Its values are [spec_float] and every
      operation is the correctly rounded (nearest, ties to even) operation of
      [SpecFloat] at precision 24 and maximal exponent 128, one rounding per
      C++ operator, in the order the C++ expression grammar fixes.  There is
      one NaN: payloads and the sign of a NaN are not represented.
    - [int] is [Z]; every integer [GeoMag] computes, the index formula of
      its lookups included, lies between 0 and 156
      ([int_expressions_small]), so no wrap-around is modelled.  Overflow
      in a call of [C] or [S] on other integers is not modelled: what is
      stated of the two lookups is stated for pairs inside these bounds.
      The integer division of the index formula is the truncating
      [Z.quot].
    - A C array [float a[NUMCOF]] is a [list] of length [NUMCOF]
      ([wf_model]); reading outside the array has no defined behaviour and
      is the [None] of the [option] monad, which the loops propagate. *)

From Stdlib Require Import ZArith List Lia ZifyBool Bool.
From Stdlib Require Import Floats.SpecFloat.
Import ListNotations.
Local Open Scope Z_scope.

(** ** Single-precision arithmetic *)

Module F32.

Definition prec : Z := 24.
Definition emax : Z := 128.

Definition t : Type := spec_float.

Definition add : t -> t -> t := SFadd prec emax.
Definition sub : t -> t -> t := SFsub prec emax.
Definition mul : t -> t -> t := SFmul prec emax.
Definition div : t -> t -> t := SFdiv prec emax.
Definition sqrtf : t -> t := SFsqrt prec emax.
Definition neg : t -> t := SFopp.

(** The conversion [(float)k] of an [int]. *)
Definition of_int (k : Z) : t := binary_normalize prec emax k 0 false.

(** The literals of the program. *)
Definition zero : t := S754_zero false.                      (* 0      *)
Definition one : t := S754_finite false 8388608 (-23).       (* 1.0f   *)
Definition half : t := S754_finite false 8388608 (-24).      (* 0.5f   *)
Definition nano : t := S754_finite false 9007199 (-53).      (* 1.0E-9f *)

(** Values of the format: the canonical finite ones, zeros, infinities
    and the NaN. *)
Definition valid (x : t) : bool := valid_binary prec emax x.

Definition is_finite (x : t) : bool :=
  match x with
  | S754_zero _ | S754_finite _ _ _ => true
  | S754_infinity _ | S754_nan => false
  end.

Definition is_neg_zero (x : t) : bool :=
  match x with
  | S754_zero true => true
  | _ => false
  end.

Definition is_zero (x : t) : bool :=
  match x with
  | S754_zero _ => true
  | _ => false
  end.

(** The sign bit of a zero or of a finite value. *)
Definition sign (x : t) : bool :=
  match x with
  | S754_zero s | S754_infinity s | S754_finite s _ _ => s
  | S754_nan => false
  end.

(** Equal, or two zeros whatever their signs: what [==] tests on values
    that are not NaN. *)
Definition sim (x y : t) : Prop :=
  x = y \/ (is_zero x = true /\ is_zero y = true).

(** The least exponent of the format, that of the subnormal numbers. *)
Definition emin : Z := SpecFloat.emin prec emax.

(** A finite value that is a multiple of the least subnormal number, as
    every result of a rounded operation is. *)
Definition above_emin (x : t) : Prop :=
  match x with
  | S754_finite _ _ e => emin <= e
  | _ => True
  end.

End F32.

Declare Scope f32_scope.
Delimit Scope f32_scope with f32.
Infix "+." := F32.add (at level 50, left associativity) : f32_scope.
Infix "-." := F32.sub (at level 50, left associativity) : f32_scope.
Infix "*." := F32.mul (at level 40, left associativity) : f32_scope.
Infix "/." := F32.div (at level 40, left associativity) : f32_scope.
Notation "-. x" := (F32.neg x) (at level 35, right associativity) : f32_scope.
Notation "# k" := (F32.of_int k) (at level 30, format "# k") : f32_scope.
Local Open Scope f32_scope.

(** ** The [option] monad of array reads *)

Definition bind {A B : Type} (x : option A) (k : A -> option B) : option B :=
  match x with
  | Some a => k a
  | None => None
  end.

Notation "x <- e ;; k" := (bind e (fun x => k))
  (at level 61, e at next level, right associativity).

(** ** The coefficient store *)

Definition NMAX : Z := 12.
Definition NUMCOF : Z := ((NMAX + 1) * (NMAX + 2)) ÷ 2.

Record ConstModel : Type := {
  epoch : F32.t;
  Main_Field_Coeff_C : list F32.t;
  Main_Field_Coeff_S : list F32.t;
  Secular_Var_Coeff_C : list F32.t;
  Secular_Var_Coeff_S : list F32.t
}.

(** The declared array bounds of the struct. *)
Definition wf_model (WMM : ConstModel) : Prop :=
  length (Main_Field_Coeff_C WMM) = Z.to_nat NUMCOF /\
  length (Main_Field_Coeff_S WMM) = Z.to_nat NUMCOF /\
  length (Secular_Var_Coeff_C WMM) = Z.to_nat NUMCOF /\
  length (Secular_Var_Coeff_S WMM) = Z.to_nat NUMCOF.

(** [a[i]]: defined inside the array only. *)
Definition read (a : list F32.t) (i : Z) : option F32.t :=
  if i <? 0 then None else nth_error a (Z.to_nat i).

Module ConstModel.

(** [int index= (m*(2*NMAX-m+1))/2+n;] *)
Definition index (n m : Z) : Z := (m * (2 * NMAX - m + 1)) ÷ 2 + n.

(** [ConstModel::C] and [ConstModel::S].  With [PROGMEM] defined the same
  two entries are fetched through [pgm_read_float_near] and combined by
  the same expression, so one definition covers both builds. *)
Definition C (WMM : ConstModel) (n m : Z) (dyear : F32.t) : option F32.t :=
let index := index n m in
mf <- read (Main_Field_Coeff_C WMM) index ;;
sv <- read (Secular_Var_Coeff_C WMM) index ;;
Some (mf +. (dyear -. epoch WMM) *. sv).

Definition S (WMM : ConstModel) (n m : Z) (dyear : F32.t) : option F32.t :=
let index := index n m in
mf <- read (Main_Field_Coeff_S WMM) index ;;
sv <- read (Secular_Var_Coeff_S WMM) index ;;
Some (mf +. (dyear -. epoch WMM) *. sv).

End ConstModel.

(** ** The synthesizer *)

Definition EARTH_R : F32.t := #6371200.

Record Vector : Type := { x : F32.t; y : F32.t; z : F32.t }.

(** The position-dependent factors computed before the loops. *)
Record Geom : Type := { a : F32.t; b : F32.t; f : F32.t; g : F32.t }.

Definition geometry (position_itrs : Vector) : Geom :=
  let x := x position_itrs in
  let y := y position_itrs in
  let z := z position_itrs in
  let rsqrd := x *. x +. y *. y +. z *. z in
  let temp := EARTH_R /. rsqrd in
  {| a := x *. temp; b := y *. temp; f := z *. temp; g := EARTH_R *. temp |}.

(** The scalars the loops update in place. *)
Record Regs : Type := {
  Vtop : F32.t; Wtop : F32.t;
  Vprev : F32.t; Wprev : F32.t;
  Vnm : F32.t; Wnm : F32.t;
  px : F32.t; py : F32.t; pz : F32.t
}.

Definition initial (position_itrs : Vector) : Regs :=
  let x := x position_itrs in
  let y := y position_itrs in
  let z := z position_itrs in
  let rsqrd := x *. x +. y *. y +. z *. z in
  let Vtop := EARTH_R /. F32.sqrtf rsqrd in
  let Wtop := F32.zero in
  {| Vtop := Vtop; Wtop := Wtop; Vprev := F32.zero; Wprev := F32.zero;
     Vnm := Vtop; Wnm := Wtop;
     px := F32.zero; py := F32.zero; pz := F32.zero |}.

(** Lines 118-137: the in-place update of the V and W scalars. *)
Definition recurrence (G : Geom) (n m : Z) (s : Regs) : Regs :=
  if n =? m then
    if negb (m =? 0) then
      let temp := Vtop s in
      let Vtop' := #(2 * m - 1) *. (a G *. Vtop s -. b G *. Wtop s) in
      let Wtop' := #(2 * m - 1) *. (a G *. Wtop s +. b G *. temp) in
      {| Vtop := Vtop'; Wtop := Wtop'; Vprev := F32.zero; Wprev := F32.zero;
         Vnm := Vtop'; Wnm := Wtop';
         px := px s; py := py s; pz := pz s |}
    else s
  else
    let temp := Vnm s in
    let invs_temp := F32.one /. #(n - m) in
    let Vnm' := (#(2 * n - 1) *. f G *. Vnm s -. #(n + m - 1) *. g G *. Vprev s) *. invs_temp in
    let Vprev' := temp in
    let temp := Wnm s in
    let Wnm' := (#(2 * n - 1) *. f G *. Wnm s -. #(n + m - 1) *. g G *. Wprev s) *. invs_temp in
    let Wprev' := temp in
    {| Vtop := Vtop s; Wtop := Wtop s; Vprev := Vprev'; Wprev := Wprev';
       Vnm := Vnm'; Wnm := Wnm';
       px := px s; py := py s; pz := pz s |}.

(** The guards of the four [if] statements of lines 138-152. *)
Definition raise_guard (n m : Z) : bool := (m <? NMAX) && (n >=? m + 2).
Definition lower_guard (n m : Z) : bool := (n >=? 2) && (m >=? 2).
Definition order1_guard (n m : Z) : bool := (m =? 1) && (n >=? 2).
Definition vertical_guard (n m : Z) : bool := (n >=? 2) && (n >? m).

Definition set_pxy (s : Regs) (px' py' : F32.t) : Regs :=
  {| Vtop := Vtop s; Wtop := Wtop s; Vprev := Vprev s; Wprev := Wprev s;
     Vnm := Vnm s; Wnm := Wnm s; px := px'; py := py'; pz := pz s |}.

Definition set_pz (s : Regs) (pz' : F32.t) : Regs :=
  {| Vtop := Vtop s; Wtop := Wtop s; Vprev := Vprev s; Wprev := Wprev s;
     Vnm := Vnm s; Wnm := Wnm s; px := px s; py := py s; pz := pz' |}.

(** Lines 138-141.  The store is constant, so the two calls of each of
    [WMM.C] and [WMM.S] in the two statements return the same value. *)
Definition raise_rule (WMM : ConstModel) (dyear : F32.t) (n m : Z) (s : Regs) : option Regs :=
  if raise_guard n m then
    c <- ConstModel.C WMM (n - 1) (m + 1) dyear ;;
    d <- ConstModel.S WMM (n - 1) (m + 1) dyear ;;
    Some (set_pxy s
      (px s +. F32.half *. #(n - m) *. #(n - m - 1) *. (c *. Vnm s +. d *. Wnm s))
      (py s +. F32.half *. #(n - m) *. #(n - m - 1) *. (-. c *. Wnm s +. d *. Vnm s)))
  else Some s.

(** Lines 142-145. *)
Definition lower_rule (WMM : ConstModel) (dyear : F32.t) (n m : Z) (s : Regs) : option Regs :=
  if lower_guard n m then
    c <- ConstModel.C WMM (n - 1) (m - 1) dyear ;;
    d <- ConstModel.S WMM (n - 1) (m - 1) dyear ;;
    Some (set_pxy s
      (px s +. F32.half *. (-. c *. Vnm s -. d *. Wnm s))
      (py s +. F32.half *. (-. c *. Wnm s +. d *. Vnm s)))
  else Some s.

(** Lines 146-149. *)
Definition order1_rule (WMM : ConstModel) (dyear : F32.t) (n m : Z) (s : Regs) : option Regs :=
  if order1_guard n m then
    c <- ConstModel.C WMM (n - 1) 0 dyear ;;
    Some (set_pxy s (px s +. -. c *. Vnm s) (py s +. -. c *. Wnm s))
  else Some s.

(** Lines 150-152. *)
Definition vertical_rule (WMM : ConstModel) (dyear : F32.t) (n m : Z) (s : Regs) : option Regs :=
  if vertical_guard n m then
    c <- ConstModel.C WMM (n - 1) m dyear ;;
    d <- ConstModel.S WMM (n - 1) m dyear ;;
    Some (set_pz s (pz s +. #(n - m) *. (-. c *. Vnm s -. d *. Wnm s)))
  else Some s.

(** One pass through the body of the inner loop, lines 118-152. *)
Definition iteration (WMM : ConstModel) (dyear : F32.t) (G : Geom) (n m : Z) (s : Regs)
  : option Regs :=
  s1 <- raise_rule WMM dyear n m (recurrence G n m s) ;;
  s2 <- lower_rule WMM dyear n m s1 ;;
  s3 <- order1_rule WMM dyear n m s2 ;;
  vertical_rule WMM dyear n m s3.

(** [for (i = lo; i <= hi; i++) body], for a body that leaves [i] alone:
    [k] passes starting at [i]. *)
Fixpoint for_count {A : Type} (k : nat) (i : Z) (body : Z -> A -> option A) (s : A)
  : option A :=
  match k with
  | O => Some s
  | S k' => s' <- body i s ;; for_count k' (i + 1) body s'
  end.

Definition for_le {A : Type} (lo hi : Z) (body : Z -> A -> option A) (s : A) : option A :=
  for_count (Z.to_nat (hi + 1 - lo)) lo body s.

(** Lines 116-153: the inner loop at order [m]. *)
Definition column (WMM : ConstModel) (dyear : F32.t) (G : Geom) (m : Z) (s : Regs)
  : option Regs :=
  for_le m (NMAX + 1) (fun n => iteration WMM dyear G n m) s.

(** Line 155. *)
Definition result (s : Regs) : Vector :=
  {| x := -. px s *. F32.nano; y := -. py s *. F32.nano; z := -. pz s *. F32.nano |}.

Definition GeoMag (dyear : F32.t) (position_itrs : Vector) (WMM : ConstModel)
  : option Vector :=
  let G := geometry position_itrs in
  s <- for_le 0 (NMAX + 1) (column WMM dyear G) (initial position_itrs) ;;
  Some (result s).

(** ** The loops as a relation

    The two [for] statements read as the usual big-step rules of a counted
    loop; the third index counts the passes through the innermost body. *)

Inductive for_loop {A : Type} (hi : Z) (body : Z -> A -> nat -> A -> Prop)
  : Z -> A -> nat -> A -> Prop :=
| for_exit : forall i s, hi < i -> for_loop hi body i s O s
| for_pass : forall i s k1 s1 k2 s2,
    i <= hi ->
    body i s k1 s1 ->
    for_loop hi body (i + 1) s1 k2 s2 ->
    for_loop hi body i s (k1 + k2)%nat s2.

Definition pass (WMM : ConstModel) (dyear : F32.t) (G : Geom) (m : Z)
  : Z -> Regs -> nat -> Regs -> Prop :=
  fun n s k s' => iteration WMM dyear G n m s = Some s' /\ k = 1%nat.

Definition loops (WMM : ConstModel) (dyear : F32.t) (G : Geom)
  : Z -> Regs -> nat -> Regs -> Prop :=
  for_loop (NMAX + 1) (fun m => for_loop (NMAX + 1) (pass WMM dyear G m) m).

(** [GeoMag_exec dyear p WMM k r]: the call returns [r] after [k] passes. *)
Definition GeoMag_exec (dyear : F32.t) (position_itrs : Vector) (WMM : ConstModel)
  (k : nat) (r : Vector) : Prop :=
  exists s, loops WMM dyear (geometry position_itrs) 0 (initial position_itrs) k s /\
            r = result s.

(** The registers right after the pass at degree [n] and order [m]. *)
Definition regs_at (dyear : F32.t) (position_itrs : Vector) (WMM : ConstModel) (n m : Z)
  : option Regs :=
  let G := geometry position_itrs in
  s <- for_le 0 (m - 1) (column WMM dyear G) (initial position_itrs) ;;
  for_le m n (fun n' => iteration WMM dyear G n' m) s.

(** ** Reference definitions *)

(** The packing domain of the store and the pairs the loops visit. *)
Definition in_domain (n m : Z) : Prop := 0 <= m /\ m <= n /\ n <= NMAX.
Definition visited (n m : Z) : Prop := 0 <= m /\ m <= n /\ n <= NMAX + 1.

(** The (degree, order) pairs looked up during the pass at [(n, m)]. *)
Definition reads (n m : Z) : list (Z * Z) :=
  (if raise_guard n m then [(n - 1, m + 1)] else []) ++
  (if lower_guard n m then [(n - 1, m - 1)] else []) ++
  (if order1_guard n m then [(n - 1, 0)] else []) ++
  (if vertical_guard n m then [(n - 1, m)] else []).

Definition guards (n m : Z) : list bool :=
  [raise_guard n m; lower_guard n m; order1_guard n m; vertical_guard n m].

Definition count_true (l : list bool) : nat := length (filter (fun c => c) l).

(** [k] consecutive integers from [lo]. *)
Fixpoint zrange (lo : Z) (k : nat) : list Z :=
  match k with
  | O => []
  | S k' => lo :: zrange (lo + 1) k'
  end.

(** The pairs [(n, m)] in the order of the traversal. *)
Definition column_pairs (m : Z) : list (Z * Z) :=
  map (fun n => (n, m)) (zrange m (Z.to_nat (NMAX + 2 - m))).

Definition traversal : list (Z * Z) :=
  flat_map column_pairs (zrange 0 (Z.to_nat (NMAX + 2))).

(** The time-corrected coefficient as a total function of the tables. *)
Definition coefficient (mf sv : list F32.t) (ep : F32.t) (n m : Z) (t : F32.t) : F32.t :=
  let i := Z.to_nat (ConstModel.index n m) in
  nth i mf F32.zero +. (t -. ep) *. nth i sv F32.zero.

Definition valueC (W : ConstModel) (n m : Z) (t : F32.t) : F32.t :=
  coefficient (Main_Field_Coeff_C W) (Secular_Var_Coeff_C W) (epoch W) n m t.

Definition valueS (W : ConstModel) (n m : Z) (t : F32.t) : F32.t :=
  coefficient (Main_Field_Coeff_S W) (Secular_Var_Coeff_S W) (epoch W) n m t.

(** The full table of the recurrence.  [scale x k] is how a vertical step
    divides [x] by [k = n - m]; entries above the diagonal, [n < m], are
    zero, which is what the step at [n = m + 1] reads for [V(m-1, m)]. *)
Section Table.

Variable scale : F32.t -> Z -> F32.t.
Variable G : Geom.
Variable seed : F32.t * F32.t.

Definition diagonal_step (m : Z) (d : F32.t * F32.t) : F32.t * F32.t :=
  let '(v, w) := d in
  (#(2 * m - 1) *. (a G *. v -. b G *. w),
   #(2 * m - 1) *. (a G *. w +. b G *. v)).

Definition vertical_step (n m : Z) (p1 p2 : F32.t * F32.t) : F32.t * F32.t :=
  let '(v1, w1) := p1 in
  let '(v2, w2) := p2 in
  (scale (#(2 * n - 1) *. f G *. v1 -. #(n + m - 1) *. g G *. v2) (n - m),
   scale (#(2 * n - 1) *. f G *. w1 -. #(n + m - 1) *. g G *. w2) (n - m)).

Fixpoint table (n m : nat) {struct n} : F32.t * F32.t :=
  match n with
  | O => match m with O => seed | S _ => (F32.zero, F32.zero) end
  | S n1 =>
      match Nat.compare n m with
      | Lt => (F32.zero, F32.zero)
      | Eq => diagonal_step (Z.of_nat m) (table n1 (Nat.pred m))
      | Gt =>
          vertical_step (Z.of_nat n) (Z.of_nat m) (table n1 m)
            match n1 with
            | O => (F32.zero, F32.zero)
            | S n2 => table n2 m
            end
      end
  end.

End Table.

(** The program multiplies by the rounded reciprocal [1.0f/(n-m)]; the
    recurrence as the specification writes it divides by [n - m]. *)
Definition by_reciprocal (x : F32.t) (k : Z) : F32.t := x *. (F32.one /. #k).
Definition by_division (x : F32.t) (k : Z) : F32.t := x /. #k.

Definition seed_of (position_itrs : Vector) : F32.t * F32.t :=
  (Vtop (initial position_itrs), Wtop (initial position_itrs)).

(** The table at a position: with the program's scaling, and with the
    scaling of the specification. *)
Definition VW (position_itrs : Vector) (n m : Z) : F32.t * F32.t :=
  table by_reciprocal (geometry position_itrs) (seed_of position_itrs)
    (Z.to_nat n) (Z.to_nat m).

Definition V (position_itrs : Vector) (n m : Z) : F32.t := fst (VW position_itrs n m).
Definition W (position_itrs : Vector) (n m : Z) : F32.t := snd (VW position_itrs n m).

Definition VW_spec (position_itrs : Vector) (n m : Z) : F32.t * F32.t :=
  table by_division (geometry position_itrs) (seed_of position_itrs)
    (Z.to_nat n) (Z.to_nat m).

Definition V_spec (position_itrs : Vector) (n m : Z) : F32.t := fst (VW_spec position_itrs n m).
Definition W_spec (position_itrs : Vector) (n m : Z) : F32.t := snd (VW_spec position_itrs n m).

(** The entry one degree below [(n, m)] in the same column; on the
    diagonal there is none and the program holds zero. *)
Definition below (position_itrs : Vector) (n m : Z) : F32.t * F32.t :=
  if n =? m then (F32.zero, F32.zero) else VW position_itrs (n - 1) m.

(** The terms the four rules add to each accumulator at [(n, m)], in
    program order, from the coefficients and the table values [v], [w]. *)
Section Contributions.

Variable WMM : ConstModel.
Variable t : F32.t.

Definition px_terms (n m : Z) (v w : F32.t) : list F32.t :=
  (if raise_guard n m then
     [F32.half *. #(n - m) *. #(n - m - 1) *.
        (valueC WMM (n - 1) (m + 1) t *. v +. valueS WMM (n - 1) (m + 1) t *. w)]
   else []) ++
  (if lower_guard n m then
     [F32.half *. (-. valueC WMM (n - 1) (m - 1) t *. v -. valueS WMM (n - 1) (m - 1) t *. w)]
   else []) ++
  (if order1_guard n m then [-. valueC WMM (n - 1) 0 t *. v] else []).

Definition py_terms (n m : Z) (v w : F32.t) : list F32.t :=
  (if raise_guard n m then
     [F32.half *. #(n - m) *. #(n - m - 1) *.
        (-. valueC WMM (n - 1) (m + 1) t *. w +. valueS WMM (n - 1) (m + 1) t *. v)]
   else []) ++
  (if lower_guard n m then
     [F32.half *. (-. valueC WMM (n - 1) (m - 1) t *. w +. valueS WMM (n - 1) (m - 1) t *. v)]
   else []) ++
  (if order1_guard n m then [-. valueC WMM (n - 1) 0 t *. w] else []).

Definition pz_terms (n m : Z) (v w : F32.t) : list F32.t :=
  if vertical_guard n m then
    [#(n - m) *. (-. valueC WMM (n - 1) m t *. v -. valueS WMM (n - 1) m t *. w)]
  else [].

End Contributions.

(** The sum, in traversal order and starting from zero, of the terms
    [terms n m V(n,m) W(n,m)] over the pairs of [l]. *)
Definition gradient_sum (p : Vector) (terms : Z -> Z -> F32.t -> F32.t -> list F32.t)
  (l : list (Z * Z)) : F32.t :=
  fold_left F32.add
    (flat_map (fun nm => terms (fst nm) (snd nm) (V p (fst nm) (snd nm)) (W p (fst nm) (snd nm))) l)
    F32.zero.

Definition GeoMag_sums (t : F32.t) (p : Vector) (WMM : ConstModel) : Vector :=
  {| x := -. gradient_sum p (px_terms WMM t) traversal *. F32.nano;
     y := -. gradient_sum p (py_terms WMM t) traversal *. F32.nano;
     z := -. gradient_sum p (pz_terms WMM t) traversal *. F32.nano |}.

(** The pairs visited up to and including [(n, m)]. *)
Definition prefix (n m : Z) : list (Z * Z) :=
  flat_map column_pairs (zrange 0 (Z.to_nat m)) ++
  map (fun n' => (n', m)) (zrange m (Z.to_nat (n + 1 - m))).

(** What the registers hold after the pass at [(n, m)], in terms of the
    table and of the sums over the pairs visited so far. *)
Definition table_regs (t : F32.t) (p : Vector) (WMM : ConstModel) (n m : Z) : Regs :=
  {| Vtop := V p m m; Wtop := W p m m;
     Vprev := fst (below p n m); Wprev := snd (below p n m);
     Vnm := V p n m; Wnm := W p n m;
     px := gradient_sum p (px_terms WMM t) (prefix n m);
     py := gradient_sum p (py_terms WMM t) (prefix n m);
     pz := gradient_sum p (pz_terms WMM t) (prefix n m) |}.

(** The accumulators after the four rules, as sums of their terms. *)
Definition accumulated (WMM : ConstModel) (t : F32.t) (n m : Z) (s : Regs) : Regs :=
  {| Vtop := Vtop s; Wtop := Wtop s; Vprev := Vprev s; Wprev := Wprev s;
     Vnm := Vnm s; Wnm := Wnm s;
     px := fold_left F32.add (px_terms WMM t n m (Vnm s) (Wnm s)) (px s);
     py := fold_left F32.add (py_terms WMM t n m (Vnm s) (Wnm s)) (py s);
     pz := fold_left F32.add (pz_terms WMM t n m (Vnm s) (Wnm s)) (pz s) |}.

(** The registers at the start of column [m]. *)
Definition start_of (t : F32.t) (p : Vector) (WMM : ConstModel) (m : Z) : Regs :=
  if m =? 0 then initial p else table_regs t p WMM (NMAX + 1) (m - 1).

(** Two stores whose lookups agree on the pairs of degree at least one
    make every pass of the traversal behave alike. *)
Definition lookups_agree (W1 W2 : ConstModel) (t : F32.t) : Prop :=
  forall d o, 1 <= d -> in_domain d o ->
    ConstModel.C W1 d o t = ConstModel.C W2 d o t /\
    ConstModel.S W1 d o t = ConstModel.S W2 d o t.

(** The store with every secular-variation entry replaced by zero. *)
Definition zero_sv (WMM : ConstModel) : ConstModel :=
  {| epoch := epoch WMM;
     Main_Field_Coeff_C := Main_Field_Coeff_C WMM;
     Main_Field_Coeff_S := Main_Field_Coeff_S WMM;
     Secular_Var_Coeff_C := map (fun _ => F32.zero) (Secular_Var_Coeff_C WMM);
     Secular_Var_Coeff_S := map (fun _ => F32.zero) (Secular_Var_Coeff_S WMM) |}.

(** Two stores that agree on the epoch and on every entry but the first. *)
Definition agree_from_1 (l1 l2 : list F32.t) : Prop :=
  forall i, (1 <= i)%nat -> nth_error l1 i = nth_error l2 i.

Definition same_but_slot0 (W1 W2 : ConstModel) : Prop :=
  epoch W1 = epoch W2 /\
  agree_from_1 (Main_Field_Coeff_C W1) (Main_Field_Coeff_C W2) /\
  agree_from_1 (Main_Field_Coeff_S W1) (Main_Field_Coeff_S W2) /\
  agree_from_1 (Secular_Var_Coeff_C W1) (Secular_Var_Coeff_C W2) /\
  agree_from_1 (Secular_Var_Coeff_S W1) (Secular_Var_Coeff_S W2).

(** The integers the pass at [(n, m)] computes: loop counters, factors
    of the recurrence and of the weights, and the steps of the index formula
    of each lookup. *)
Definition index_ints (d o : Z) : list Z :=
  [2 * NMAX; 2 * NMAX - o; 2 * NMAX - o + 1; o * (2 * NMAX - o + 1);
   (o * (2 * NMAX - o + 1)) ÷ 2; ConstModel.index d o].

Definition pass_ints (n m : Z) : list Z :=
  [n; m; n + 1; m + 1; NMAX + 1; m + 2] ++
  (if n =? m then (if negb (m =? 0) then [2 * m; 2 * m - 1] else [])
   else [n - m; 2 * n; 2 * n - 1; n + m; n + m - 1]) ++
  (if raise_guard n m then [n - m; n - m - 1] else []) ++
  (if vertical_guard n m then [n - m] else []) ++
  flat_map (fun r => [fst r; snd r] ++ index_ints (fst r) (snd r)) (reads n m).

(** Boolean forms used to decide the finite facts about the packing. *)
Definition in_domainb (n m : Z) : bool := (0 <=? m) && (m <=? n) && (n <=? NMAX).

Definition domain_pairs : list (Z * Z) :=
  flat_map (fun m => map (fun n => (n, m)) (zrange m (Z.to_nat (NMAX + 1 - m))))
    (zrange 0 (Z.to_nat (NMAX + 1))).

Definition hits (i : Z) (nm : Z * Z) : bool :=
  (ConstModel.index (fst nm) (snd nm) =? i) && in_domainb (fst nm) (snd nm).

(** Conditions on a store under which the epoch identity holds. *)
Definition finite_entries (l : list F32.t) : Prop :=
  forallb F32.is_finite l = true.

Definition no_neg_zero (l : list F32.t) : Prop :=
  forallb (fun v => negb (F32.is_neg_zero v)) l = true.

Definition finite_variation (WMM : ConstModel) : Prop :=
  F32.is_finite (epoch WMM) = true /\
  finite_entries (Secular_Var_Coeff_C WMM) /\
  finite_entries (Secular_Var_Coeff_S WMM).

Definition no_neg_zero_main (WMM : ConstModel) : Prop :=
  no_neg_zero (Main_Field_Coeff_C WMM) /\ no_neg_zero (Main_Field_Coeff_S WMM).

(** What an accumulator holds: a multiple of the least subnormal number
    that is not a negative zero. *)
Definition acc_ok (u : F32.t) : Prop :=
  F32.above_emin u /\ F32.is_neg_zero u = false.

(** Two results whose components are equal up to the sign of a zero. *)
Definition same_field (r1 r2 : Vector) : Prop :=
  F32.sim (x r1) (x r2) /\ F32.sim (y r1) (y r2) /\ F32.sim (z r1) (z r2).

Definition visitedb (nm : Z * Z) : bool :=
  (0 <=? snd nm) && (snd nm <=? fst nm) && (fst nm <=? NMAX + 1).

Definition values_sim (W1 W2 : ConstModel) (t : F32.t) : Prop :=
  forall d o, in_domain d o ->
    F32.sim (valueC W1 d o t) (valueC W2 d o t) /\
    F32.sim (valueS W1 d o t) (valueS W2 d o t).

(** ** Sample inputs

    A store holding the zonal and the dipole coefficients of WMM2020
    rounded to whole nanotesla (all other entries zero), a position about
    700 km above the reference sphere, and a year after the epoch. *)

Definition table_of (head : list Z) (at13 : Z) : list F32.t :=
  map F32.of_int (head ++ [at13]) ++ repeat F32.zero 77.

Definition sample_model : ConstModel :=
  {| epoch := #2020;
     Main_Field_Coeff_C :=
       table_of [0; -29404; -2500; 1364; 903; -234; 66; 81; 24; 5; -2; 3; -2] (-1451);
     Main_Field_Coeff_S := table_of [0; 0; 0; 0; 0; 0; 0; 0; 0; 0; 0; 0; 0] 4653;
     Secular_Var_Coeff_C := table_of [0; 7; -11; 3; -1; 0; -1; 0; 0; 0; 0; 0; 0] 8;
     Secular_Var_Coeff_S := table_of [0; 0; 0; 0; 0; 0; 0; 0; 0; 0; 0; 0; 0] (-25) |}.

Definition sample_position : Vector :=
  {| x := #3000000; y := #4000000; z := #5000000 |}.

Definition sample_year : F32.t := #2022.

(** The sample store with one secular-variation entry, the one of
    [(n, m) = (1, 0)], made infinite. *)
Definition infinite_rate_model : ConstModel :=
  {| epoch := #2020;
     Main_Field_Coeff_C := Main_Field_Coeff_C sample_model;
     Main_Field_Coeff_S := Main_Field_Coeff_S sample_model;
     Secular_Var_Coeff_C :=
       [F32.zero; S754_infinity false] ++ repeat F32.zero 89;
     Secular_Var_Coeff_S := Secular_Var_Coeff_S sample_model |}.

(** The sample store with the main-field sine entry of [(11, 1)], slot
    23, set to negative zero over a rate of positive zero, as in the
    [WMM2015v2] table. *)
Definition neg_zero_model : ConstModel :=
  {| epoch := #2020;
     Main_Field_Coeff_C := Main_Field_Coeff_C sample_model;
     Main_Field_Coeff_S :=
       firstn 23 (Main_Field_Coeff_S sample_model) ++ [S754_zero true] ++
       skipn 24 (Main_Field_Coeff_S sample_model);
     Secular_Var_Coeff_C := Secular_Var_Coeff_C sample_model;
     Secular_Var_Coeff_S := Secular_Var_Coeff_S sample_model |}.

(** The sample store with slot 0 of every table overwritten. *)
Definition poke0 (v : F32.t) (l : list F32.t) : list F32.t :=
  match l with
  | [] => []
  | _ :: tl => v :: tl
  end.

Definition sample_model_poked : ConstModel :=
  {| epoch := epoch sample_model;
     Main_Field_Coeff_C := poke0 (#12345) (Main_Field_Coeff_C sample_model);
     Main_Field_Coeff_S := poke0 S754_nan (Main_Field_Coeff_S sample_model);
     Secular_Var_Coeff_C := poke0 (#(-7)) (Secular_Var_Coeff_C sample_model);
     Secular_Var_Coeff_S := poke0 (S754_infinity true) (Secular_Var_Coeff_S sample_model) |}.

(** ** Definitions for the further properties *)

(** [x*x+y*y+z*z], as [GeoMag] evaluates it. *)
Definition rsqrd (position_itrs : Vector) : F32.t :=
  x position_itrs *. x position_itrs +. y position_itrs *. y position_itrs +.
  z position_itrs *. z position_itrs.

Definition nan_field : Vector := {| x := S754_nan; y := S754_nan; z := S754_nan |}.

Definition neg_field (r : Vector) : Vector :=
  {| x := -. x r; y := -. y r; z := -. z r |}.

(** [u'] is the negation of [u], up to the sign of a zero. *)
Definition anti (u u' : F32.t) : Prop := F32.sim u' (-. u).

(** The store with every coefficient negated. *)
Definition neg_model (WMM : ConstModel) : ConstModel :=
  {| epoch := epoch WMM;
     Main_Field_Coeff_C := map F32.neg (Main_Field_Coeff_C WMM);
     Main_Field_Coeff_S := map F32.neg (Main_Field_Coeff_S WMM);
     Secular_Var_Coeff_C := map F32.neg (Secular_Var_Coeff_C WMM);
     Secular_Var_Coeff_S := map F32.neg (Secular_Var_Coeff_S WMM) |}.

Definition zero_entries (l : list F32.t) : Prop := forallb F32.is_zero l = true.

(** The body of the inner loop applied along a list of pairs. *)
Fixpoint run_pairs (WMM : ConstModel) (dyear : F32.t) (G : Geom)
  (l : list (Z * Z)) (s : Regs) : option Regs :=
  match l with
  | [] => Some s
  | nm :: l' =>
      s' <- iteration WMM dyear G (fst nm) (snd nm) s ;;
      run_pairs WMM dyear G l' s'
  end.

(** Order first, degree second. *)
Definition pair_ltb (u v : Z * Z) : bool :=
  (snd u <? snd v) || ((snd u =? snd v) && (fst u <? fst v)).

Fixpoint increasing (l : list (Z * Z)) : bool :=
  match l with
  | u :: (v :: _) as tl => pair_ltb u v && increasing tl
  | _ => true
  end.

(** Every table value at the position is a finite number. *)
Definition finite_table (p : Vector) : Prop :=
  forallb (fun nm => F32.is_finite (V p (fst nm) (snd nm)) &&
                     F32.is_finite (W p (fst nm) (snd nm))) traversal = true.

(** A store whose entries are all zero. *)
Definition zero_model : ConstModel :=
  {| epoch := #2020;
     Main_Field_Coeff_C := repeat F32.zero 91;
     Main_Field_Coeff_S := repeat F32.zero 91;
     Secular_Var_Coeff_C := repeat F32.zero 91;
     Secular_Var_Coeff_S := repeat F32.zero 91 |}.

Definition zero_store (WMM : ConstModel) : Prop :=
  zero_entries (Main_Field_Coeff_C WMM) /\ zero_entries (Main_Field_Coeff_S WMM) /\
  zero_entries (Secular_Var_Coeff_C WMM) /\ zero_entries (Secular_Var_Coeff_S WMM).

(** The weights of the rules at a pair. *)
Definition weights_finite (nm : Z * Z) : bool :=
  F32.is_finite (F32.half *. #(fst nm - snd nm) *. #(fst nm - snd nm - 1)) &&
  F32.is_finite (#(fst nm - snd nm)).

(** Two stores that differ at most in the sine entries of order 0, the
    first [NMAX + 1] slots of the two sine arrays. *)
Definition agree_from_order1 (l1 l2 : list F32.t) : Prop :=
  forall i, (Z.to_nat (NMAX + 1) <= i)%nat -> nth_error l1 i = nth_error l2 i.

Definition same_but_order0_sines (W1 W2 : ConstModel) : Prop :=
  epoch W1 = epoch W2 /\
  Main_Field_Coeff_C W1 = Main_Field_Coeff_C W2 /\
  Secular_Var_Coeff_C W1 = Secular_Var_Coeff_C W2 /\
  agree_from_order1 (Main_Field_Coeff_S W1) (Main_Field_Coeff_S W2) /\
  agree_from_order1 (Secular_Var_Coeff_S W1) (Secular_Var_Coeff_S W2).

(** The time-corrected sine coefficients of order 0 are finite numbers. *)
Definition finite_order0_sines (WMM : ConstModel) (t : F32.t) : Prop :=
  forallb (fun d => F32.is_finite (valueS WMM d 0 t)) (zrange 0 (Z.to_nat (NMAX + 1))) = true.

(** The sample store with other sine entries of order 0. *)
Definition sample_model_order0 : ConstModel :=
  {| epoch := epoch sample_model;
     Main_Field_Coeff_C := Main_Field_Coeff_C sample_model;
     Main_Field_Coeff_S :=
       map F32.of_int [7; -300; 41; 5; -6; 0; 12; 1; 1; -2; 9; 3; -8] ++
       skipn 13 (Main_Field_Coeff_S sample_model);
     Secular_Var_Coeff_C := Secular_Var_Coeff_C sample_model;
     Secular_Var_Coeff_S :=
       map F32.of_int [1; 2; -3; 0; 0; 4; 0; -1; 0; 0; 2; 0; 1] ++
       skipn 13 (Secular_Var_Coeff_S sample_model) |}.

(** * Properties *)


(** ** The triangular packing *)

Lemma NUMCOF_value : NUMCOF = 91.
Proof. reflexivity. Qed.

(** Splits a goal over the values [0 .. 13] an order can take. *)
Ltac order_cases m :=
  let H := fresh "Hcase" in
  assert (H : m = 0 \/ m = 1 \/ m = 2 \/ m = 3 \/ m = 4 \/ m = 5 \/ m = 6 \/
              m = 7 \/ m = 8 \/ m = 9 \/ m = 10 \/ m = 11 \/ m = 12 \/ m = 13)
    by (unfold NMAX in *; lia);
  repeat (destruct H as [H | H]); subst m.

(** The product under the division is even: nothing is truncated. *)
Lemma index_double (n m : Z) :
  0 <= m <= NMAX + 1 ->
  2 * ConstModel.index n m = m * (2 * NMAX - m + 1) + 2 * n.
Proof.
  intros Hm. unfold ConstModel.index.
  order_cases m; unfold NMAX;
    match goal with
    | |- context [?p ÷ 2] => let v := eval vm_compute in (p ÷ 2) in change (p ÷ 2) with v
    end; lia.
Qed.

Lemma index_bounds (n m : Z) :
  in_domain n m -> 0 <= ConstModel.index n m < NUMCOF.
Proof.
  intros (H0 & H1 & H2). rewrite NUMCOF_value.
  assert (Hd := index_double n m). unfold NMAX in * . nia.
Qed.

Lemma index_injective (n m n' m' : Z) :
  in_domain n m -> in_domain n' m' ->
  ConstModel.index n m = ConstModel.index n' m' -> n = n' /\ m = m'.
Proof.
  intros (H0 & H1 & H2) (H0' & H1' & H2') He.
  assert (Hd := index_double n m). assert (Hd' := index_double n' m').
  unfold NMAX in * .
  assert (m = m') by nia. subst m'. lia.
Qed.

Lemma in_zrange (i lo : Z) (k : nat) :
  In i (zrange lo k) <-> lo <= i < lo + Z.of_nat k.
Proof.
  revert lo. induction k as [|k IH]; intros lo; cbn [zrange In].
  - lia.
  - rewrite IH. lia.
Qed.

Lemma length_zrange (lo : Z) (k : nat) : length (zrange lo k) = k.
Proof. revert lo. induction k; intros; cbn; auto. Qed.

Lemma index_surjective (i : Z) :
  0 <= i < NUMCOF -> exists n m, in_domain n m /\ ConstModel.index n m = i.
Proof.
  intros Hi.
  assert (Hall : forallb (fun i => existsb (hits i) domain_pairs)
                   (zrange 0 (Z.to_nat NUMCOF)) = true) by (vm_compute; reflexivity).
  rewrite forallb_forall in Hall.
  assert (Hin : In i (zrange 0 (Z.to_nat NUMCOF))) by (apply in_zrange; lia).
  apply Hall in Hin. apply existsb_exists in Hin.
  destruct Hin as ((n, m) & _ & Hh). unfold hits, in_domainb in Hh. cbn [fst snd] in Hh.
  exists n, m. unfold in_domain. lia.
Qed.

(** ** Lookups *)

Lemma read_in_bounds (l : list F32.t) (i : Z) :
  length l = Z.to_nat NUMCOF -> 0 <= i < NUMCOF ->
  read l i = Some (nth (Z.to_nat i) l F32.zero).
Proof.
  intros Hl Hi. unfold read.
  destruct (i <? 0) eqn:E; [lia|].
  apply nth_error_nth'. lia.
Qed.

Lemma read_out_of_bounds (l : list F32.t) (i : Z) :
  length l = Z.to_nat NUMCOF -> ~ 0 <= i < NUMCOF -> read l i = None.
Proof.
  intros Hl Hi. unfold read.
  destruct (i <? 0) eqn:E; [reflexivity|].
  apply nth_error_None. lia.
Qed.

Lemma C_in_domain (WMM : ConstModel) (n m : Z) (t : F32.t) :
  wf_model WMM -> in_domain n m -> ConstModel.C WMM n m t = Some (valueC WMM n m t).
Proof.
  intros (HC & _ & HvC & _) Hd. apply index_bounds in Hd.
  unfold ConstModel.C, valueC, coefficient.
  rewrite (read_in_bounds _ _ HC Hd), (read_in_bounds _ _ HvC Hd). reflexivity.
Qed.

Lemma S_in_domain (WMM : ConstModel) (n m : Z) (t : F32.t) :
  wf_model WMM -> in_domain n m -> ConstModel.S WMM n m t = Some (valueS WMM n m t).
Proof.
  intros (_ & HS & _ & HvS) Hd. apply index_bounds in Hd.
  unfold ConstModel.S, valueS, coefficient.
  rewrite (read_in_bounds _ _ HS Hd), (read_in_bounds _ _ HvS Hd). reflexivity.
Qed.

Lemma sample_model_wf : wf_model sample_model.
Proof. repeat split. Qed.

(** ** Guards and the pairs they read *)

Lemma reads_in_domain (n m d o : Z) :
  visited n m -> In (d, o) (reads n m) -> 1 <= d /\ in_domain d o.
Proof.
  unfold visited, reads, in_domain, raise_guard, lower_guard, order1_guard,
    vertical_guard, NMAX.
  intros Hv Hin.
  repeat (apply in_app_or in Hin; destruct Hin as [Hin | Hin]);
    match type of Hin with
    | In _ (if ?c then _ else _) => destruct c eqn:E; cbn in Hin
    end;
    try contradiction;
    destruct Hin as [Hin | []]; inversion Hin; subst; lia.
Qed.

Lemma raise_in_reads (n m : Z) :
  raise_guard n m = true -> In (n - 1, m + 1) (reads n m).
Proof. intros Hg. unfold reads. rewrite Hg. cbn. auto. Qed.

Lemma lower_in_reads (n m : Z) :
  lower_guard n m = true -> In (n - 1, m - 1) (reads n m).
Proof.
  intros Hg. unfold reads. rewrite Hg. apply in_or_app. right. cbn. auto.
Qed.

Lemma order1_in_reads (n m : Z) :
  order1_guard n m = true -> In (n - 1, 0) (reads n m).
Proof.
  intros Hg. unfold reads. rewrite Hg. do 2 (apply in_or_app; right). cbn. auto.
Qed.

Lemma vertical_in_reads (n m : Z) :
  vertical_guard n m = true -> In (n - 1, m) (reads n m).
Proof.
  intros Hg. unfold reads. rewrite Hg. do 3 (apply in_or_app; right). cbn. auto.
Qed.

Lemma raise_reads (n m : Z) :
  visited n m -> raise_guard n m = true -> 1 <= n - 1 /\ in_domain (n - 1) (m + 1).
Proof.
  intros Hv Hg. apply (reads_in_domain n m); [exact Hv | apply raise_in_reads, Hg].
Qed.

Lemma lower_reads (n m : Z) :
  visited n m -> lower_guard n m = true -> 1 <= n - 1 /\ in_domain (n - 1) (m - 1).
Proof.
  intros Hv Hg. apply (reads_in_domain n m); [exact Hv | apply lower_in_reads, Hg].
Qed.

Lemma order1_reads (n m : Z) :
  visited n m -> order1_guard n m = true -> 1 <= n - 1 /\ in_domain (n - 1) 0.
Proof.
  intros Hv Hg. apply (reads_in_domain n m); [exact Hv | apply order1_in_reads, Hg].
Qed.

Lemma vertical_reads (n m : Z) :
  visited n m -> vertical_guard n m = true -> 1 <= n - 1 /\ in_domain (n - 1) m.
Proof.
  intros Hv Hg. apply (reads_in_domain n m); [exact Hv | apply vertical_in_reads, Hg].
Qed.

(** [reads n m] covers the lookups of the pass: when they are all
    defined, so is the pass. *)
Lemma iteration_reads (WMM : ConstModel) (t : F32.t) (G : Geom) (n m : Z) (s : Regs) :
  (forall d o, In (d, o) (reads n m) ->
     ConstModel.C WMM d o t <> None /\ ConstModel.S WMM d o t <> None) ->
  iteration WMM t G n m s <> None.
Proof.
  intros H. unfold iteration. generalize (recurrence G n m s). intros r.
  assert (R1 : raise_rule WMM t n m r <> None).
  { unfold raise_rule. destruct (raise_guard n m) eqn:E; [|discriminate].
    destruct (H _ _ (raise_in_reads n m E)) as [Hc Hs].
    destruct (ConstModel.C WMM (n - 1) (m + 1) t); [|contradiction].
    destruct (ConstModel.S WMM (n - 1) (m + 1) t); [|contradiction]. discriminate. }
  destruct (raise_rule WMM t n m r) as [r1|]; [clear R1; cbn [bind]|contradiction].
  assert (R2 : lower_rule WMM t n m r1 <> None).
  { unfold lower_rule. destruct (lower_guard n m) eqn:E; [|discriminate].
    destruct (H _ _ (lower_in_reads n m E)) as [Hc Hs].
    destruct (ConstModel.C WMM (n - 1) (m - 1) t); [|contradiction].
    destruct (ConstModel.S WMM (n - 1) (m - 1) t); [|contradiction]. discriminate. }
  destruct (lower_rule WMM t n m r1) as [r2|]; [clear R2; cbn [bind]|contradiction].
  assert (R3 : order1_rule WMM t n m r2 <> None).
  { unfold order1_rule. destruct (order1_guard n m) eqn:E; [|discriminate].
    destruct (H _ _ (order1_in_reads n m E)) as [Hc Hs].
    destruct (ConstModel.C WMM (n - 1) 0 t); [|contradiction]. discriminate. }
  destruct (order1_rule WMM t n m r2) as [r3|]; [clear R3; cbn [bind]|contradiction].
  unfold vertical_rule. destruct (vertical_guard n m) eqn:E; [|discriminate].
  destruct (H _ _ (vertical_in_reads n m E)) as [Hc Hs].
  destruct (ConstModel.C WMM (n - 1) m t); [|contradiction].
  destruct (ConstModel.S WMM (n - 1) m t); [|contradiction]. discriminate.
Qed.

(** ** One pass *)

(** Inside the traversal every lookup of a pass is defined, and the four
    rules add the terms of [px_terms], [py_terms] and [pz_terms]. *)
Lemma iteration_accumulated (WMM : ConstModel) (t : F32.t) (G : Geom) (n m : Z) (s : Regs) :
  wf_model WMM -> visited n m ->
  iteration WMM t G n m s = Some (accumulated WMM t n m (recurrence G n m s)).
Proof.
  intros Hwf Hv. unfold iteration.
  generalize (recurrence G n m s). intros r.
  unfold raise_rule, lower_rule, order1_rule, vertical_rule, accumulated,
    px_terms, py_terms, pz_terms.
  destruct (raise_guard n m) eqn:E1;
    [destruct (raise_reads n m Hv E1) as [_ D1];
     rewrite (C_in_domain _ _ _ _ Hwf D1), (S_in_domain _ _ _ _ Hwf D1)|];
  (destruct (lower_guard n m) eqn:E2;
    [destruct (lower_reads n m Hv E2) as [_ D2];
     rewrite (C_in_domain _ _ _ _ Hwf D2), (S_in_domain _ _ _ _ Hwf D2)|]);
  (destruct (order1_guard n m) eqn:E3;
    [destruct (order1_reads n m Hv E3) as [_ D3];
     rewrite (C_in_domain _ _ _ _ Hwf D3)|]);
  (destruct (vertical_guard n m) eqn:E4;
    [destruct (vertical_reads n m Hv E4) as [_ D4];
     rewrite (C_in_domain _ _ _ _ Hwf D4), (S_in_domain _ _ _ _ Hwf D4)|]);
  cbn [bind]; try rewrite E2; try rewrite E3; try rewrite E4; cbn [bind];
  try rewrite E3; try rewrite E4; cbn [bind]; try rewrite E4; cbn [bind];
  destruct r; reflexivity.
Qed.

Lemma iteration_agree (W1 W2 : ConstModel) (t : F32.t) (G : Geom) (n m : Z) (s : Regs) :
  lookups_agree W1 W2 t -> visited n m ->
  iteration W1 t G n m s = iteration W2 t G n m s.
Proof.
  intros Ha Hv. unfold iteration.
  generalize (recurrence G n m s). intros r.
  assert (R1 : forall r, raise_rule W1 t n m r = raise_rule W2 t n m r).
  { intros r0. unfold raise_rule. destruct (raise_guard n m) eqn:E; [|reflexivity].
    destruct (raise_reads n m Hv E) as [D1 D2].
    destruct (Ha _ _ D1 D2) as [-> ->]. reflexivity. }
  assert (R2 : forall r, lower_rule W1 t n m r = lower_rule W2 t n m r).
  { intros r0. unfold lower_rule. destruct (lower_guard n m) eqn:E; [|reflexivity].
    destruct (lower_reads n m Hv E) as [D1 D2].
    destruct (Ha _ _ D1 D2) as [-> ->]. reflexivity. }
  assert (R3 : forall r, order1_rule W1 t n m r = order1_rule W2 t n m r).
  { intros r0. unfold order1_rule. destruct (order1_guard n m) eqn:E; [|reflexivity].
    destruct (order1_reads n m Hv E) as [D1 D2].
    destruct (Ha _ _ D1 D2) as [-> _]. reflexivity. }
  assert (R4 : forall r, vertical_rule W1 t n m r = vertical_rule W2 t n m r).
  { intros r0. unfold vertical_rule. destruct (vertical_guard n m) eqn:E; [|reflexivity].
    destruct (vertical_reads n m Hv E) as [D1 D2].
    destruct (Ha _ _ D1 D2) as [-> ->]. reflexivity. }
  rewrite R1. destruct (raise_rule W2 t n m r) as [r1|]; [cbn [bind]|reflexivity].
  rewrite R2. destruct (lower_rule W2 t n m r1) as [r2|]; [cbn [bind]|reflexivity].
  rewrite R3. destruct (order1_rule W2 t n m r2) as [r3|]; [cbn [bind]|reflexivity].
  apply R4.
Qed.

(** ** Counted loops *)

Lemma for_count_ext {A : Type} (body1 body2 : Z -> A -> option A) (k : nat) (i : Z) (s : A) :
  (forall j s', i <= j < i + Z.of_nat k -> body1 j s' = body2 j s') ->
  for_count k i body1 s = for_count k i body2 s.
Proof.
  revert i s. induction k as [|k IH]; intros i s Hb; cbn [for_count]; [reflexivity|].
  rewrite Hb by lia. destruct (body2 i s) as [s'|]; cbn [bind]; [|reflexivity].
  apply IH. intros j s0 Hj. apply Hb. lia.
Qed.

Lemma for_count_snoc {A : Type} (body : Z -> A -> option A) (k : nat) (i : Z) (s : A) :
  for_count (S k) i body s =
  (s' <- for_count k i body s ;; body (i + Z.of_nat k) s').
Proof.
  revert i s. induction k as [|k IH]; intros i s.
  - cbn [for_count bind]. replace (i + Z.of_nat 0) with i by lia.
    destruct (body i s); reflexivity.
  - change (for_count (S (S k)) i body s)
      with (s' <- body i s ;; for_count (S k) (i + 1) body s').
    change (for_count (S k) i body s)
      with (s' <- body i s ;; for_count k (i + 1) body s').
    destruct (body i s) as [s1|]; cbn [bind]; [|reflexivity].
    rewrite IH. replace (i + 1 + Z.of_nat k) with (i + Z.of_nat (S k)) by lia.
    reflexivity.
Qed.

(** A chain of passes that each map [Q j] to [Q (j + 1)]. *)
Lemma for_count_chain {A : Type} (body : Z -> A -> option A) (Q : Z -> A)
  (k : nat) (i : Z) :
  (forall j, i <= j < i + Z.of_nat k -> body j (Q j) = Some (Q (j + 1))) ->
  for_count k i body (Q i) = Some (Q (i + Z.of_nat k)).
Proof.
  revert i. induction k as [|k IH]; intros i Hb; cbn [for_count].
  - f_equal. f_equal. lia.
  - rewrite Hb by lia. cbn [bind]. rewrite IH.
    + f_equal. f_equal. lia.
    + intros j Hj. apply Hb. lia.
Qed.

(** The relation and the function describe the same runs. *)
Lemma for_loop_sound {A : Type} (hi : Z) (R : Z -> A -> nat -> A -> Prop)
  (body : Z -> A -> option A) :
  (forall i s k s', i <= hi -> R i s k s' -> body i s = Some s') ->
  forall i s k s', for_loop hi R i s k s' -> i <= hi + 1 ->
    for_le i hi body s = Some s'.
Proof.
  intros HR i s k s' Hrun. unfold for_le.
  induction Hrun as [i s Hi | i s k1 s1 k2 s2 Hi Hb Hrun IH]; intros Hle.
  - replace (hi + 1 - i) with 0 by lia. reflexivity.
  - replace (Z.to_nat (hi + 1 - i)) with (S (Z.to_nat (hi + 1 - (i + 1)))) by lia.
    cbn [for_count]. rewrite (HR _ _ _ _ Hi Hb). cbn [bind]. apply IH. lia.
Qed.

Lemma for_loop_complete {A : Type} (hi : Z) (R : Z -> A -> nat -> A -> Prop)
  (body : Z -> A -> option A) :
  (forall i s s', i <= hi -> body i s = Some s' -> exists k, R i s k s') ->
  forall (n : nat) i s s', Z.of_nat n = hi + 1 - i ->
    for_count n i body s = Some s' -> exists k, for_loop hi R i s k s'.
Proof.
  intros HR n. induction n as [|n IH]; intros i s s' Hn Hrun; cbn [for_count] in Hrun.
  - inversion Hrun; subst. exists O. apply for_exit. lia.
  - destruct (body i s) as [s1|] eqn:Eb; cbn [bind] in Hrun; [|discriminate].
    destruct (HR i s s1 ltac:(lia) Eb) as [k1 H1].
    destruct (IH (i + 1) s1 s' ltac:(lia) Hrun) as [k2 H2].
    exists (k1 + k2)%nat. eapply for_pass; eauto. lia.
Qed.

(** ** The table of the recurrence *)

Section TableFacts.

Variable scale : F32.t -> Z -> F32.t.
Variable G : Geom.
Variable seed : F32.t * F32.t.

Lemma table_above (n m : nat) :
  (n < m)%nat -> table scale G seed n m = (F32.zero, F32.zero).
Proof.
  intros H. destruct n as [|n]; cbn [table].
  - destruct m; [lia | reflexivity].
  - destruct (Nat.compare_spec (S n) m); try lia; reflexivity.
Qed.

Lemma table_diagonal (m : nat) :
  (1 <= m)%nat ->
  table scale G seed m m =
  diagonal_step G (Z.of_nat m) (table scale G seed (Nat.pred m) (Nat.pred m)).
Proof.
  intros H. destruct m as [|m]; [lia|].
  cbn [table Nat.pred]. rewrite Nat.compare_refl. reflexivity.
Qed.

Lemma table_vertical (n m : nat) :
  (m < n)%nat ->
  table scale G seed n m =
  vertical_step scale G (Z.of_nat n) (Z.of_nat m)
    (table scale G seed (Nat.pred n) m)
    (if (Nat.pred n =? m)%nat then (F32.zero, F32.zero)
     else table scale G seed (Nat.pred (Nat.pred n)) m).
Proof.
  intros H. destruct n as [|n]; [lia|].
  cbn [table Nat.pred].
  destruct (Nat.compare_spec (S n) m); try lia.
  f_equal. destruct (Nat.eqb_spec n m) as [->|Hne].
  - destruct m as [|m']; [reflexivity|]. apply table_above. lia.
  - destruct n as [|n']; [lia|]. reflexivity.
Qed.

End TableFacts.

Lemma VW_seed (p : Vector) : VW p 0 0 = seed_of p.
Proof. reflexivity. Qed.

Lemma VW_diagonal (p : Vector) (m : Z) :
  1 <= m ->
  VW p m m = diagonal_step (geometry p) m (VW p (m - 1) (m - 1)).
Proof.
  intros H. unfold VW. rewrite table_diagonal by lia.
  rewrite Z2Nat.id by lia.
  replace (Nat.pred (Z.to_nat m)) with (Z.to_nat (m - 1)) by lia. reflexivity.
Qed.

Lemma below_table (scale : F32.t -> Z -> F32.t) (G : Geom) (seed : F32.t * F32.t) (n m : Z) :
  0 <= m <= n ->
  (if (Z.to_nat n =? Z.to_nat m)%nat then (F32.zero, F32.zero)
   else table scale G seed (Nat.pred (Z.to_nat n)) (Z.to_nat m)) =
  (if n =? m then (F32.zero, F32.zero)
   else table scale G seed (Z.to_nat (n - 1)) (Z.to_nat m)).
Proof.
  intros H. destruct (Z.eqb_spec n m) as [->|Hne].
  - rewrite Nat.eqb_refl. reflexivity.
  - destruct (Nat.eqb_spec (Z.to_nat n) (Z.to_nat m)); [lia|].
    replace (Nat.pred (Z.to_nat n)) with (Z.to_nat (n - 1)) by lia. reflexivity.
Qed.

Lemma VW_vertical (p : Vector) (n m : Z) :
  0 <= m < n ->
  VW p n m =
  vertical_step by_reciprocal (geometry p) n m (VW p (n - 1) m) (below p (n - 1) m).
Proof.
  intros H. unfold below, VW. rewrite table_vertical by lia.
  rewrite !Z2Nat.id by lia.
  replace (Nat.pred (Z.to_nat n)) with (Z.to_nat (n - 1)) by lia.
  rewrite below_table by lia. reflexivity.
Qed.

Lemma VW_spec_vertical (p : Vector) (n m : Z) :
  0 <= m < n ->
  VW_spec p n m =
  vertical_step by_division (geometry p) n m (VW_spec p (n - 1) m)
    (if n - 1 =? m then (F32.zero, F32.zero) else VW_spec p (n - 1 - 1) m).
Proof.
  intros H. unfold VW_spec. rewrite table_vertical by lia.
  rewrite !Z2Nat.id by lia.
  replace (Nat.pred (Z.to_nat n)) with (Z.to_nat (n - 1)) by lia.
  rewrite below_table by lia. reflexivity.
Qed.

(** ** The pairs visited so far *)

Lemma zrange_snoc (lo : Z) (k : nat) :
  zrange lo (S k) = zrange lo k ++ [lo + Z.of_nat k].
Proof.
  revert lo. induction k as [|k IH]; intros lo.
  - cbn. f_equal. lia.
  - change (zrange lo (S (S k))) with (lo :: zrange (lo + 1) (S k)).
    rewrite IH. cbn [zrange app]. do 3 f_equal. lia.
Qed.

Lemma prefix_first : prefix 0 0 = [(0, 0)].
Proof. reflexivity. Qed.

Lemma prefix_vertical (n m : Z) :
  0 <= m < n -> prefix n m = prefix (n - 1) m ++ [(n, m)].
Proof.
  intros H. unfold prefix.
  replace (Z.to_nat (n + 1 - m)) with (S (Z.to_nat (n - 1 + 1 - m))) by lia.
  rewrite zrange_snoc, map_app, app_assoc. cbn [map]. do 3 f_equal. lia.
Qed.

Lemma prefix_diagonal (m : Z) :
  1 <= m -> prefix m m = prefix (NMAX + 1) (m - 1) ++ [(m, m)].
Proof.
  intros H. unfold prefix.
  replace (Z.to_nat m) with (S (Z.to_nat (m - 1))) at 1 by lia.
  rewrite zrange_snoc, flat_map_app. cbn [flat_map]. rewrite app_nil_r.
  replace (Z.to_nat (m + 1 - m)) with 1%nat by lia. cbn [zrange map].
  unfold column_pairs at 2.
  replace (0 + Z.of_nat (Z.to_nat (m - 1))) with (m - 1) by lia.
  replace (NMAX + 1 + 1 - (m - 1)) with (NMAX + 2 - (m - 1)) by lia.
  reflexivity.
Qed.

Lemma prefix_full : prefix (NMAX + 1) (NMAX + 1) = traversal.
Proof. vm_compute. reflexivity. Qed.

Lemma gradient_sum_snoc (p : Vector) (terms : Z -> Z -> F32.t -> F32.t -> list F32.t)
  (l : list (Z * Z)) (n m : Z) :
  gradient_sum p terms (l ++ [(n, m)]) =
  fold_left F32.add (terms n m (V p n m) (W p n m)) (gradient_sum p terms l).
Proof.
  unfold gradient_sum. rewrite flat_map_app, fold_left_app.
  cbn [flat_map fst snd]. rewrite app_nil_r. reflexivity.
Qed.

(** ** The registers follow the table *)

Section Invariant.

Variable t : F32.t.
Variable p : Vector.
Variable WMM : ConstModel.
Hypothesis Hwf : wf_model WMM.

Let G := geometry p.

(** The rules turn registers that hold the table values at [(n, m)] and
    the sums over [l] into [table_regs n m], when [(n, m)] comes right
    after [l]. *)
Lemma accumulated_table (n m : Z) (l : list (Z * Z)) (r : Regs) :
  prefix n m = l ++ [(n, m)] ->
  Vtop r = V p m m -> Wtop r = W p m m ->
  Vprev r = fst (below p n m) -> Wprev r = snd (below p n m) ->
  Vnm r = V p n m -> Wnm r = W p n m ->
  px r = gradient_sum p (px_terms WMM t) l ->
  py r = gradient_sum p (py_terms WMM t) l ->
  pz r = gradient_sum p (pz_terms WMM t) l ->
  accumulated WMM t n m r = table_regs t p WMM n m.
Proof.
  intros Hl H1 H2 H3 H4 H5 H6 H7 H8 H9.
  unfold accumulated, table_regs.
  rewrite Hl, !gradient_sum_snoc, H1, H2, H3, H4, H5, H6, H7, H8, H9.
  reflexivity.
Qed.

Lemma step_first :
  iteration WMM t G 0 0 (initial p) = Some (table_regs t p WMM 0 0).
Proof.
  rewrite iteration_accumulated by first [exact Hwf | unfold visited, NMAX; lia].
  apply f_equal, (accumulated_table 0 0 []); reflexivity.
Qed.

Lemma step_diagonal (m : Z) :
  1 <= m <= NMAX + 1 ->
  iteration WMM t G m m (table_regs t p WMM (NMAX + 1) (m - 1)) =
  Some (table_regs t p WMM m m).
Proof.
  intros Hm.
  rewrite iteration_accumulated by first [exact Hwf | unfold visited; lia].
  f_equal.
  assert (Hrec : recurrence G m m (table_regs t p WMM (NMAX + 1) (m - 1)) =
                 {| Vtop := V p m m; Wtop := W p m m;
                    Vprev := F32.zero; Wprev := F32.zero;
                    Vnm := V p m m; Wnm := W p m m;
                    px := gradient_sum p (px_terms WMM t) (prefix (NMAX + 1) (m - 1));
                    py := gradient_sum p (py_terms WMM t) (prefix (NMAX + 1) (m - 1));
                    pz := gradient_sum p (pz_terms WMM t) (prefix (NMAX + 1) (m - 1)) |}).
  { unfold recurrence. rewrite Z.eqb_refl.
    destruct (Z.eqb_spec m 0) as [E|_]; [lia|]. cbn [negb].
    unfold V, W. rewrite (VW_diagonal p m) by lia.
    unfold table_regs, V, W. cbn [Vtop Wtop px py pz].
    destruct (VW p (m - 1) (m - 1)) as [v w]. reflexivity. }
  rewrite Hrec.
  apply (accumulated_table m m (prefix (NMAX + 1) (m - 1)));
    try reflexivity.
  - apply prefix_diagonal. lia.
  - unfold below. rewrite Z.eqb_refl. reflexivity.
  - unfold below. rewrite Z.eqb_refl. reflexivity.
Qed.

Lemma step_vertical (n m : Z) :
  0 <= m < n -> n <= NMAX + 1 ->
  iteration WMM t G n m (table_regs t p WMM (n - 1) m) =
  Some (table_regs t p WMM n m).
Proof.
  intros Hm Hn.
  rewrite iteration_accumulated by first [exact Hwf | unfold visited; lia].
  f_equal.
  assert (Hrec : recurrence G n m (table_regs t p WMM (n - 1) m) =
                 {| Vtop := V p m m; Wtop := W p m m;
                    Vprev := V p (n - 1) m; Wprev := W p (n - 1) m;
                    Vnm := V p n m; Wnm := W p n m;
                    px := gradient_sum p (px_terms WMM t) (prefix (n - 1) m);
                    py := gradient_sum p (py_terms WMM t) (prefix (n - 1) m);
                    pz := gradient_sum p (pz_terms WMM t) (prefix (n - 1) m) |}).
  { assert (HVW : (V p n m, W p n m) =
                  vertical_step by_reciprocal G n m
                    (V p (n - 1) m, W p (n - 1) m)
                    (fst (below p (n - 1) m), snd (below p (n - 1) m))).
    { unfold V, W. rewrite (VW_vertical p n m) by lia.
      destruct (VW p (n - 1) m), (below p (n - 1) m). reflexivity. }
    unfold vertical_step, by_reciprocal in HVW.
    assert (HV := f_equal fst HVW). assert (HW := f_equal snd HVW).
    cbn [fst snd] in HV, HW.
    unfold recurrence.
    destruct (Z.eqb_spec n m) as [E|_]; [lia|].
    rewrite HV, HW. reflexivity. }
  rewrite Hrec.
  apply (accumulated_table n m (prefix (n - 1) m)); try reflexivity.
  - apply prefix_vertical. lia.
  - unfold below. destruct (Z.eqb_spec n m); [lia|]. reflexivity.
  - unfold below. destruct (Z.eqb_spec n m); [lia|]. reflexivity.
Qed.

(** The inner loop, stopped after degree [n]. *)
Lemma column_upto (n m : Z) :
  visited n m ->
  for_le m n (fun n' => iteration WMM t G n' m) (start_of t p WMM m) =
  Some (table_regs t p WMM n m).
Proof.
  intros (H0 & H1 & H2). unfold for_le.
  replace (Z.to_nat (n + 1 - m)) with (S (Z.to_nat (n - m))) by lia.
  cbn [for_count].
  assert (Hfirst : iteration WMM t G m m (start_of t p WMM m) =
                   Some (table_regs t p WMM m m)).
  { unfold start_of. destruct (Z.eqb_spec m 0) as [->|Hne].
    - apply step_first.
    - apply step_diagonal. lia. }
  rewrite Hfirst. cbn [bind].
  replace (table_regs t p WMM m m) with (table_regs t p WMM (m + 1 - 1) m)
    by (f_equal; lia).
  rewrite (for_count_chain _ (fun j => table_regs t p WMM (j - 1) m)).
  - do 2 f_equal. lia.
  - intros j Hj. replace (j + 1 - 1) with j by lia.
    apply step_vertical; lia.
Qed.

Lemma column_table (m : Z) :
  0 <= m <= NMAX + 1 ->
  column WMM t G m (start_of t p WMM m) = Some (start_of t p WMM (m + 1)).
Proof.
  intros Hm. unfold column. rewrite column_upto by (unfold visited; lia).
  unfold start_of. destruct (Z.eqb_spec (m + 1) 0); [lia|].
  do 2 f_equal. lia.
Qed.

Lemma columns_before (m : Z) :
  0 <= m <= NMAX + 2 ->
  for_le 0 (m - 1) (column WMM t G) (initial p) = Some (start_of t p WMM m).
Proof.
  intros Hm. unfold for_le.
  change (initial p) with (start_of t p WMM 0).
  rewrite (for_count_chain _ (start_of t p WMM)).
  - do 2 f_equal. lia.
  - intros j Hj. apply column_table. lia.
Qed.

Lemma regs_at_table (n m : Z) :
  visited n m -> regs_at t p WMM n m = Some (table_regs t p WMM n m).
Proof.
  intros Hv. unfold regs_at.
  rewrite columns_before by (unfold visited in Hv; lia).
  cbn [bind]. apply column_upto. exact Hv.
Qed.

Lemma loops_table :
  for_le 0 (NMAX + 1) (column WMM t G) (initial p) =
  Some (table_regs t p WMM (NMAX + 1) (NMAX + 1)).
Proof.
  replace (NMAX + 1) with (NMAX + 2 - 1) at 1 by lia.
  rewrite columns_before by (unfold NMAX; lia).
  reflexivity.
Qed.

End Invariant.

(** ** Runs of the loops *)

Section Runs.

Variable t : F32.t.
Variable G : Geom.
Variable WMM : ConstModel.

Lemma column_sound (m : Z) (s : Regs) (k : nat) (s' : Regs) :
  m <= NMAX + 1 ->
  for_loop (NMAX + 1) (pass WMM t G m) m s k s' -> column WMM t G m s = Some s'.
Proof.
  intros Hm Hrun. unfold column.
  refine (for_loop_sound (NMAX + 1) (pass WMM t G m) _ _ m s k s' Hrun _); [|lia].
  intros i s0 k0 s0' _ [H _]. exact H.
Qed.

Lemma column_complete (m : Z) (s s' : Regs) :
  m <= NMAX + 1 ->
  column WMM t G m s = Some s' ->
  exists k, for_loop (NMAX + 1) (pass WMM t G m) m s k s'.
Proof.
  intros Hm Hrun. unfold column, for_le in Hrun.
  refine (for_loop_complete (NMAX + 1) (pass WMM t G m) _ _ _ m s s' _ Hrun); [|lia].
  intros i s0 s0' _ Hb. exists 1%nat. split; auto.
Qed.

Lemma loops_sound (s : Regs) (k : nat) (s' : Regs) :
  loops WMM t G 0 s k s' -> for_le 0 (NMAX + 1) (column WMM t G) s = Some s'.
Proof.
  intros Hrun. unfold loops in Hrun.
  refine (for_loop_sound (NMAX + 1) _ _ _ 0 s k s' Hrun _); [|unfold NMAX; lia].
  intros i s0 k0 s0' Hi H. eapply column_sound; eauto.
Qed.

Lemma loops_complete (s s' : Regs) :
  for_le 0 (NMAX + 1) (column WMM t G) s = Some s' ->
  exists k, loops WMM t G 0 s k s'.
Proof.
  intros Hrun. unfold for_le in Hrun. unfold loops.
  refine (for_loop_complete (NMAX + 1) _ _ _ _ 0 s s' _ Hrun); [|unfold NMAX; lia].
  intros i s0 s0' Hi Hb. apply column_complete; auto.
Qed.

(** The inner loop started at [n] makes [NMAX + 2 - n] passes. *)
Lemma column_passes (m n : Z) (s : Regs) (k : nat) (s' : Regs) :
  for_loop (NMAX + 1) (pass WMM t G m) n s k s' ->
  n <= NMAX + 2 -> Z.of_nat k = NMAX + 2 - n.
Proof.
  intros Hrun. induction Hrun as [i s Hi | i s k1 s1 k2 s2 Hi [_ ->] Hrun IH];
    intros Hle; lia.
Qed.

(** From column [m] on, the loops make [(NMAX+2-m)(NMAX+3-m)/2] passes. *)
Lemma loops_passes (m : Z) (s : Regs) (k : nat) (s' : Regs) :
  loops WMM t G m s k s' ->
  0 <= m <= NMAX + 2 ->
  2 * Z.of_nat k = (NMAX + 2 - m) * (NMAX + 3 - m).
Proof.
  unfold loops. intros Hrun.
  induction Hrun as [i s Hi | i s k1 s1 k2 s2 Hi Hb Hrun IH]; intros Hle.
  - replace i with (NMAX + 2) by lia. lia.
  - apply column_passes in Hb; [|lia].
    specialize (IH ltac:(lia)). nia.
Qed.

End Runs.

Lemma GeoMag_exec_sound (t : F32.t) (p : Vector) (WMM : ConstModel) (k : nat) (r : Vector) :
  GeoMag_exec t p WMM k r -> GeoMag t p WMM = Some r.
Proof.
  intros (s & Hrun & ->). unfold GeoMag.
  rewrite (loops_sound _ _ _ _ _ _ Hrun). reflexivity.
Qed.

Lemma GeoMag_exec_complete (t : F32.t) (p : Vector) (WMM : ConstModel) (r : Vector) :
  GeoMag t p WMM = Some r -> exists k, GeoMag_exec t p WMM k r.
Proof.
  unfold GeoMag. intros H.
  destruct (for_le 0 (NMAX + 1) (column WMM t (geometry p)) (initial p)) as [s|] eqn:E;
    cbn [bind] in H; [|discriminate].
  destruct (loops_complete _ _ _ _ _ E) as [k Hk].
  exists k, s. split; [exact Hk | congruence].
Qed.

Lemma GeoMag_exec_passes (t : F32.t) (p : Vector) (WMM : ConstModel) (k : nat) (r : Vector) :
  GeoMag_exec t p WMM k r -> k = Z.to_nat (((NMAX + 2) * (NMAX + 3)) / 2).
Proof.
  intros (s & Hrun & _). apply loops_passes in Hrun; [|unfold NMAX; lia].
  change (Z.to_nat (((NMAX + 2) * (NMAX + 3)) / 2)) with 105%nat.
  unfold NMAX in Hrun. lia.
Qed.

Lemma GeoMag_defined (t : F32.t) (p : Vector) (WMM : ConstModel) :
  wf_model WMM -> GeoMag t p WMM = Some (GeoMag_sums t p WMM).
Proof.
  intros Hwf. unfold GeoMag. rewrite loops_table by exact Hwf. cbn [bind].
  unfold result, table_regs, GeoMag_sums. cbn [px py pz].
  rewrite prefix_full. reflexivity.
Qed.

(** ** Signed zeros *)

Lemma sub_self (v : F32.t) : F32.is_finite v = true -> v -. v = F32.zero.
Proof.
  destruct v as [s|s| |s m e]; cbn [F32.is_finite]; intros H; try discriminate.
  - destruct s; reflexivity.
  - unfold F32.sub, SFsub. rewrite Z.sub_diag. reflexivity.
Qed.

Lemma zero_mul_finite (v : F32.t) :
  F32.is_finite v = true -> F32.zero *. v = S754_zero (F32.sign v).
Proof.
  destruct v as [s|s| |s m e]; cbn [F32.is_finite]; intros H; try discriminate;
    reflexivity.
Qed.

Lemma add_signed_zero (v : F32.t) (s : bool) :
  v +. S754_zero s = v \/ (v = S754_zero true /\ v +. S754_zero s = F32.zero).
Proof.
  destruct v as [[|]|[|]| |sv m e]; destruct s; cbn; auto.
Qed.

Lemma add_signed_zero_exact (v : F32.t) (s : bool) :
  F32.is_neg_zero v = false -> v +. S754_zero s = v.
Proof.
  intros H. destruct (add_signed_zero v s) as [E|[E _]]; [exact E|].
  subst v. discriminate.
Qed.

Lemma sim_refl (u : F32.t) : F32.sim u u.
Proof. left. reflexivity. Qed.

Lemma sim_zeros (s1 s2 : bool) : F32.sim (S754_zero s1) (S754_zero s2).
Proof. right. split; reflexivity. Qed.

(** Splits [sim u u'] into the equal case and the case of two zeros. *)
Ltac sim_cases H :=
  destruct H as [H | [H ?]];
  [ subst
  | match type of H with
    | F32.is_zero ?u = true =>
        destruct u; try discriminate H; clear H
    end;
    match goal with
    | H' : F32.is_zero ?u = true |- _ =>
        destruct u; try discriminate H'; clear H'
    end ].

Lemma sim_neg (u u' : F32.t) : F32.sim u u' -> F32.sim (-. u) (-. u').
Proof.
  intros H. sim_cases H; [apply sim_refl | apply sim_zeros].
Qed.

Lemma sim_add (u u' v v' : F32.t) :
  F32.sim u u' -> F32.sim v v' -> F32.sim (u +. v) (u' +. v').
Proof.
  intros Hu Hv. sim_cases Hu; sim_cases Hv; try apply sim_refl.
  - destruct u' as [[|]|[|]| |su m e]; repeat match goal with s : bool |- _ => destruct s end;
      cbn; first [apply sim_refl | apply sim_zeros].
  - destruct v' as [[|]|[|]| |sv m e]; repeat match goal with s : bool |- _ => destruct s end;
      cbn; first [apply sim_refl | apply sim_zeros].
  - repeat match goal with s : bool |- _ => destruct s end; cbn; apply sim_zeros.
Qed.

Lemma sim_sub (u u' v v' : F32.t) :
  F32.sim u u' -> F32.sim v v' -> F32.sim (u -. v) (u' -. v').
Proof.
  intros Hu Hv. sim_cases Hu; sim_cases Hv; try apply sim_refl.
  - destruct u' as [[|]|[|]| |su m e]; repeat match goal with s : bool |- _ => destruct s end;
      cbn; first [apply sim_refl | apply sim_zeros].
  - destruct v' as [[|]|[|]| |sv m e]; repeat match goal with s : bool |- _ => destruct s end;
      cbn; first [apply sim_refl | apply sim_zeros].
  - repeat match goal with s : bool |- _ => destruct s end; cbn; apply sim_zeros.
Qed.

Lemma sim_mul (u u' v v' : F32.t) :
  F32.sim u u' -> F32.sim v v' -> F32.sim (u *. v) (u' *. v').
Proof.
  intros Hu Hv. sim_cases Hu; sim_cases Hv; try apply sim_refl.
  - destruct u' as [[|]|[|]| |su m e]; repeat match goal with s : bool |- _ => destruct s end;
      cbn; first [apply sim_refl | apply sim_zeros].
  - destruct v' as [[|]|[|]| |sv m e]; repeat match goal with s : bool |- _ => destruct s end;
      cbn; first [apply sim_refl | apply sim_zeros].
  - repeat match goal with s : bool |- _ => destruct s end; cbn; apply sim_zeros.
Qed.

(** ** Coefficients at the epoch *)

Lemma nth_zeroed (l : list F32.t) (i : nat) :
  nth i (map (fun _ => F32.zero) l) F32.zero = F32.zero.
Proof.
  revert i. induction l as [|v l IH]; intros [|i]; cbn [map nth]; auto.
Qed.

Lemma finite_nth (l : list F32.t) (i : nat) :
  finite_entries l -> F32.is_finite (nth i l F32.zero) = true.
Proof.
  unfold finite_entries. intros H. rewrite forallb_forall in H.
  destruct (Nat.lt_ge_cases i (length l)) as [Hi|Hi].
  - apply H, nth_In, Hi.
  - rewrite nth_overflow by exact Hi. reflexivity.
Qed.

Lemma no_neg_zero_nth (l : list F32.t) (i : nat) :
  no_neg_zero l -> F32.is_neg_zero (nth i l F32.zero) = false.
Proof.
  unfold no_neg_zero. intros H. rewrite forallb_forall in H.
  destruct (Nat.lt_ge_cases i (length l)) as [Hi|Hi].
  - apply negb_true_iff, H, nth_In, Hi.
  - rewrite nth_overflow by exact Hi. reflexivity.
Qed.

Section AtEpoch.

Variables mf sv : list F32.t.
Variable ep : F32.t.
Hypothesis Hep : F32.is_finite ep = true.
Hypothesis Hsv : finite_entries sv.

Lemma coefficient_at_epoch (n m : Z) :
  coefficient mf sv ep n m ep =
  nth (Z.to_nat (ConstModel.index n m)) mf F32.zero +.
  S754_zero (F32.sign (nth (Z.to_nat (ConstModel.index n m)) sv F32.zero)).
Proof.
  unfold coefficient.
  rewrite sub_self by exact Hep.
  rewrite zero_mul_finite by (apply finite_nth; exact Hsv).
  reflexivity.
Qed.

Lemma coefficient_zeroed (n m : Z) :
  coefficient mf (map (fun _ => F32.zero) sv) ep n m ep =
  nth (Z.to_nat (ConstModel.index n m)) mf F32.zero +. F32.zero.
Proof.
  unfold coefficient. rewrite sub_self by exact Hep. rewrite nth_zeroed. reflexivity.
Qed.

Lemma coefficient_epoch_sim (n m : Z) :
  F32.sim (coefficient mf sv ep n m ep)
          (coefficient mf (map (fun _ => F32.zero) sv) ep n m ep).
Proof.
  rewrite coefficient_at_epoch, coefficient_zeroed.
  apply sim_add; [apply sim_refl | apply sim_zeros].
Qed.

Lemma coefficient_epoch_exact (n m : Z) :
  no_neg_zero mf ->
  coefficient mf sv ep n m ep =
  coefficient mf (map (fun _ => F32.zero) sv) ep n m ep.
Proof.
  intros Hmf. rewrite coefficient_at_epoch, coefficient_zeroed.
  unfold F32.zero.
  rewrite !add_signed_zero_exact by (apply no_neg_zero_nth; exact Hmf).
  reflexivity.
Qed.

End AtEpoch.

Lemma zero_sv_wf (WMM : ConstModel) : wf_model WMM -> wf_model (zero_sv WMM).
Proof.
  intros (H1 & H2 & H3 & H4). unfold wf_model, zero_sv.
  cbn [Main_Field_Coeff_C Main_Field_Coeff_S Secular_Var_Coeff_C Secular_Var_Coeff_S].
  rewrite !length_map. auto.
Qed.

Lemma values_sim_zero_sv (WMM : ConstModel) :
  finite_variation WMM -> values_sim WMM (zero_sv WMM) (epoch WMM).
Proof.
  intros (Hep & HC & HS) d o _. unfold valueC, valueS, zero_sv.
  cbn [epoch Main_Field_Coeff_C Main_Field_Coeff_S Secular_Var_Coeff_C Secular_Var_Coeff_S].
  split; apply coefficient_epoch_sim; assumption.
Qed.

Lemma lookups_agree_zero_sv (WMM : ConstModel) :
  wf_model WMM -> finite_variation WMM -> no_neg_zero_main WMM ->
  lookups_agree WMM (zero_sv WMM) (epoch WMM).
Proof.
  intros Hwf (Hep & HC & HS) (HmC & HmS) d o _ Hd.
  rewrite (C_in_domain _ _ _ _ Hwf Hd), (S_in_domain _ _ _ _ Hwf Hd).
  rewrite (C_in_domain _ _ _ _ (zero_sv_wf _ Hwf) Hd),
          (S_in_domain _ _ _ _ (zero_sv_wf _ Hwf) Hd).
  unfold valueC, valueS, zero_sv.
  cbn [epoch Main_Field_Coeff_C Main_Field_Coeff_S Secular_Var_Coeff_C Secular_Var_Coeff_S].
  split; f_equal; apply coefficient_epoch_exact; assumption.
Qed.

(** ** Stores that look alike *)

Lemma GeoMag_agree (t : F32.t) (p : Vector) (W1 W2 : ConstModel) :
  lookups_agree W1 W2 t -> GeoMag t p W1 = GeoMag t p W2.
Proof.
  intros Ha. unfold GeoMag.
  assert (E : for_le 0 (NMAX + 1) (column W1 t (geometry p)) (initial p) =
              for_le 0 (NMAX + 1) (column W2 t (geometry p)) (initial p)).
  { unfold for_le. apply for_count_ext. intros m s Hm.
    unfold column, for_le. apply for_count_ext. intros n s' Hn.
    apply iteration_agree; [exact Ha|]. unfold visited, NMAX in * . lia. }
  rewrite E. reflexivity.
Qed.

Lemma index_positive (d o : Z) : 1 <= d -> in_domain d o -> 1 <= ConstModel.index d o.
Proof.
  intros Hd (H0 & H1 & H2). assert (Hi := index_double d o). unfold NMAX in * . nia.
Qed.

Lemma read_agree (l1 l2 : list F32.t) (i : Z) :
  agree_from_1 l1 l2 -> 1 <= i -> read l1 i = read l2 i.
Proof.
  intros Ha Hi. unfold read. destruct (i <? 0); [reflexivity|]. apply Ha. lia.
Qed.

Lemma lookups_agree_slot0 (W1 W2 : ConstModel) (t : F32.t) :
  same_but_slot0 W1 W2 -> lookups_agree W1 W2 t.
Proof.
  intros (He & H1 & H2 & H3 & H4) d o Hd Hdom.
  assert (Hi := index_positive d o Hd Hdom).
  unfold ConstModel.C, ConstModel.S.
  rewrite (read_agree _ _ _ H1 Hi), (read_agree _ _ _ H2 Hi),
          (read_agree _ _ _ H3 Hi), (read_agree _ _ _ H4 Hi), He.
  split; reflexivity.
Qed.

(** ** Sums that look alike *)

Lemma fold_add_sim (l l' : list F32.t) (u u' : F32.t) :
  Forall2 F32.sim l l' -> F32.sim u u' ->
  F32.sim (fold_left F32.add l u) (fold_left F32.add l' u').
Proof.
  intros H. revert u u'. induction H as [|v v' l l' Hv _ IH]; intros u u' Hu; cbn [fold_left].
  - exact Hu.
  - apply IH, sim_add; assumption.
Qed.

Lemma flat_map_sim {A : Type} (fa fb : A -> list F32.t) (l : list A) :
  (forall v, In v l -> Forall2 F32.sim (fa v) (fb v)) ->
  Forall2 F32.sim (flat_map fa l) (flat_map fb l).
Proof.
  induction l as [|v l IH]; intros H; cbn [flat_map].
  - constructor.
  - apply Forall2_app; [apply H; left; reflexivity|].
    apply IH. intros w Hw. apply H. right. exact Hw.
Qed.

Lemma traversal_visited (nm : Z * Z) : In nm traversal -> visited (fst nm) (snd nm).
Proof.
  intros H.
  assert (Hall : forallb visitedb traversal = true) by (vm_compute; reflexivity).
  rewrite forallb_forall in Hall. apply Hall in H.
  unfold visitedb in H. unfold visited. lia.
Qed.

Ltac sim_step :=
  repeat first [ assumption | apply sim_refl | apply sim_add | apply sim_sub
               | apply sim_mul | apply sim_neg ].

Section TermsSim.

Variables W1 W2 : ConstModel.
Variable t : F32.t.
Hypothesis Hsim : values_sim W1 W2 t.

Lemma px_terms_sim (n m : Z) (v w : F32.t) :
  visited n m -> Forall2 F32.sim (px_terms W1 t n m v w) (px_terms W2 t n m v w).
Proof.
  intros Hv. unfold px_terms.
  repeat apply Forall2_app;
    match goal with
    | |- Forall2 _ (if ?c then _ else _) _ => destruct c eqn:E; [|constructor]
    end;
    [ destruct (raise_reads n m Hv E) as [_ D]
    | destruct (lower_reads n m Hv E) as [_ D]
    | destruct (order1_reads n m Hv E) as [_ D] ];
    destruct (Hsim _ _ D) as [HC HS]; (apply Forall2_cons; [|apply Forall2_nil]); sim_step.
Qed.

Lemma py_terms_sim (n m : Z) (v w : F32.t) :
  visited n m -> Forall2 F32.sim (py_terms W1 t n m v w) (py_terms W2 t n m v w).
Proof.
  intros Hv. unfold py_terms.
  repeat apply Forall2_app;
    match goal with
    | |- Forall2 _ (if ?c then _ else _) _ => destruct c eqn:E; [|constructor]
    end;
    [ destruct (raise_reads n m Hv E) as [_ D]
    | destruct (lower_reads n m Hv E) as [_ D]
    | destruct (order1_reads n m Hv E) as [_ D] ];
    destruct (Hsim _ _ D) as [HC HS]; (apply Forall2_cons; [|apply Forall2_nil]); sim_step.
Qed.

Lemma pz_terms_sim (n m : Z) (v w : F32.t) :
  visited n m -> Forall2 F32.sim (pz_terms W1 t n m v w) (pz_terms W2 t n m v w).
Proof.
  intros Hv. unfold pz_terms.
  destruct (vertical_guard n m) eqn:E; [|constructor].
  destruct (vertical_reads n m Hv E) as [_ D].
  destruct (Hsim _ _ D) as [HC HS]. apply Forall2_cons; [|apply Forall2_nil]. sim_step.
Qed.

Lemma GeoMag_sums_sim (p : Vector) : same_field (GeoMag_sums t p W1) (GeoMag_sums t p W2).
Proof.
  unfold same_field, GeoMag_sums, gradient_sum. cbn [x y z].
  repeat split; apply sim_mul; try apply sim_refl; apply sim_neg;
    (apply fold_add_sim; [|apply sim_refl]); apply flat_map_sim;
    intros nm Hnm; apply traversal_visited in Hnm.
  - apply px_terms_sim; exact Hnm.
  - apply py_terms_sim; exact Hnm.
  - apply pz_terms_sim; exact Hnm.
Qed.

End TermsSim.

(** ** The accumulators never hold a negative zero *)

Lemma fexp_ge_emin (e : Z) : F32.emin <= fexp F32.prec F32.emax e.
Proof. unfold fexp, F32.emin, emin. lia. Qed.

Lemma shr_m_of_loc (m : Z) (l : location) : shr_m (shr_record_of_loc m l) = m.
Proof. destruct l as [|[ | | ]]; reflexivity. Qed.

Lemma shr_fexp_exponent (m e : Z) (l : location) :
  F32.emin <= snd (shr_fexp F32.prec F32.emax m e l).
Proof.
  unfold shr_fexp, shr.
  assert (H := fexp_ge_emin (Zdigits2 m + e)).
  destruct (fexp F32.prec F32.emax (Zdigits2 m + e) - e) eqn:E; cbn [snd]; lia.
Qed.

Lemma digits2_pos_le (q : positive) : 2 ^ (Z.pos (digits2_pos q) - 1) <= Z.pos q.
Proof.
  induction q as [q IH|q IH|]; cbn [digits2_pos].
  - rewrite Pos2Z.inj_succ. replace (Z.succ (Z.pos (digits2_pos q)) - 1)
      with (Z.succ (Z.pos (digits2_pos q) - 1)) by lia.
    rewrite Z.pow_succ_r by lia. lia.
  - rewrite Pos2Z.inj_succ. replace (Z.succ (Z.pos (digits2_pos q)) - 1)
      with (Z.succ (Z.pos (digits2_pos q) - 1)) by lia.
    rewrite Z.pow_succ_r by lia. lia.
  - reflexivity.
Qed.

Lemma shr_1_ge (mrs : shr_record) (c : Z) :
  0 <= c -> c * 2 <= shr_m mrs -> c <= shr_m (shr_1 mrs).
Proof.
  destruct mrs as [m r s]. cbn [shr_m]. intros Hc H.
  destruct m as [|[q|q|]|q]; cbn [shr_1 shr_m]; lia.
Qed.

Lemma shr_iter_ge (k : positive) :
  forall (mrs : shr_record) (c : Z),
    0 <= c -> c * 2 ^ Z.pos k <= shr_m mrs -> c <= shr_m (iter_pos shr_1 k mrs).
Proof.
  induction k as [k IH|k IH|]; intros mrs c Hc H; cbn [iter_pos].
  - assert (E : 2 ^ Z.pos k~1 = 2 ^ Z.pos k * 2 ^ Z.pos k * 2).
    { replace (Z.pos k~1) with (Z.pos k + Z.pos k + 1) by lia.
      rewrite !Z.pow_add_r by lia. reflexivity. }
    rewrite E in H. clear E.
    assert (HP : 0 < 2 ^ Z.pos k) by (apply Z.pow_pos_nonneg; lia).
    set (P := 2 ^ Z.pos k) in * .
    assert (H1 : 0 <= c * P) by nia. assert (H2 : 0 <= c * P * P) by nia.
    apply IH; [exact Hc|]. apply IH; [exact H1|]. apply shr_1_ge; [exact H2|]. lia.
  - assert (E : 2 ^ Z.pos k~0 = 2 ^ Z.pos k * 2 ^ Z.pos k).
    { replace (Z.pos k~0) with (Z.pos k + Z.pos k) by lia.
      rewrite Z.pow_add_r by lia. reflexivity. }
    rewrite E in H. clear E.
    assert (HP : 0 < 2 ^ Z.pos k) by (apply Z.pow_pos_nonneg; lia).
    set (P := 2 ^ Z.pos k) in * .
    assert (H1 : 0 <= c * P) by nia.
    apply IH; [exact Hc|]. apply IH; [exact H1|]. lia.
  - apply shr_1_ge; [exact Hc|]. exact H.
Qed.

Lemma shr_fexp_positive (q : positive) (e : Z) (l : location) :
  F32.emin <= e -> 0 < shr_m (fst (shr_fexp F32.prec F32.emax (Z.pos q) e l)).
Proof.
  intros He. unfold shr_fexp, shr. cbn [Zdigits2].
  destruct (fexp F32.prec F32.emax (Z.pos (digits2_pos q) + e) - e) as [|k|k] eqn:E;
    cbn [fst]; try (rewrite shr_m_of_loc; lia).
  assert (1 <= shr_m (iter_pos shr_1 k (shr_record_of_loc (Z.pos q) l))); [|lia].
  apply shr_iter_ge; [lia|]. rewrite shr_m_of_loc, Z.mul_1_l.
  assert (Hk : Z.pos k <= Z.pos (digits2_pos q) - 1).
  { unfold fexp, F32.emin, emin, F32.prec, F32.emax in * . lia. }
  apply Z.le_trans with (2 ^ (Z.pos (digits2_pos q) - 1)); [|apply digits2_pos_le].
  apply Z.pow_le_mono_r; lia.
Qed.

Lemma round_nearest_even_positive (m : Z) (l : location) :
  0 < m -> 0 < round_nearest_even m l.
Proof.
  intros H. destruct l as [|[ | | ]]; cbn [round_nearest_even]; try lia.
  destruct (Z.even m); lia.
Qed.

Lemma binary_round_aux_above (s : bool) (m e : Z) (l : location) :
  F32.above_emin (binary_round_aux F32.prec F32.emax s m e l).
Proof.
  unfold binary_round_aux.
  destruct (shr_fexp F32.prec F32.emax m e l) as [mrs e'].
  assert (H := shr_fexp_exponent
                 (round_nearest_even (shr_m mrs) (loc_of_shr_record mrs)) e' loc_Exact).
  destruct (shr_fexp F32.prec F32.emax
              (round_nearest_even (shr_m mrs) (loc_of_shr_record mrs)) e' loc_Exact)
    as [mrs' e''].
  cbn [snd] in H.
  destruct (shr_m mrs') as [|k|k]; cbn [F32.above_emin]; try exact I.
  destruct (e'' <=? F32.emax - F32.prec); cbn [F32.above_emin]; [exact H | exact I].
Qed.

Lemma binary_round_aux_nonzero (s : bool) (q : positive) (e : Z) (l : location) :
  F32.emin <= e -> F32.is_zero (binary_round_aux F32.prec F32.emax s (Z.pos q) e l) = false.
Proof.
  intros He. unfold binary_round_aux.
  assert (H1 := shr_fexp_positive q e l He).
  assert (H1' := shr_fexp_exponent (Z.pos q) e l).
  destruct (shr_fexp F32.prec F32.emax (Z.pos q) e l) as [mrs e'].
  cbn [fst snd] in H1, H1'.
  assert (Hr := round_nearest_even_positive (shr_m mrs) (loc_of_shr_record mrs) H1).
  destruct (round_nearest_even (shr_m mrs) (loc_of_shr_record mrs)) as [|r|r] eqn:Er;
    try lia.
  assert (H2 := shr_fexp_positive r e' loc_Exact H1').
  destruct (shr_fexp F32.prec F32.emax (Z.pos r) e' loc_Exact) as [mrs' e''].
  cbn [fst] in H2.
  destruct (shr_m mrs') as [|k|k]; try lia.
  destruct (e'' <=? F32.emax - F32.prec); reflexivity.
Qed.

Lemma shl_align_exponent (q : positive) (e e0 : Z) :
  F32.emin <= e -> F32.emin <= e0 -> F32.emin <= snd (shl_align q e e0).
Proof.
  intros He He0. unfold shl_align. destruct (e0 - e); cbn [snd]; lia.
Qed.

Lemma binary_round_nonzero (s : bool) (q : positive) (e : Z) :
  F32.emin <= e -> F32.is_zero (binary_round F32.prec F32.emax s q e) = false.
Proof.
  intros He. unfold binary_round.
  assert (H := shl_align_exponent q e
                 (fexp F32.prec F32.emax (Z.pos (digits2_pos q) + e)) He
                 (fexp_ge_emin _)).
  destruct (shl_align q e (fexp F32.prec F32.emax (Z.pos (digits2_pos q) + e)))
    as [mz ez].
  apply binary_round_aux_nonzero. exact H.
Qed.

Lemma binary_round_above (s : bool) (q : positive) (e : Z) :
  F32.above_emin (binary_round F32.prec F32.emax s q e).
Proof.
  unfold binary_round.
  destruct (shl_align q e (fexp F32.prec F32.emax (Z.pos (digits2_pos q) + e)))
    as [mz ez].
  apply binary_round_aux_above.
Qed.

Lemma mul_above_emin (u v : F32.t) : F32.above_emin (u *. v).
Proof.
  destruct u as [su|su| |su mu eu], v as [sv|sv| |sv mv ev]; try exact I.
  apply binary_round_aux_above.
Qed.

Lemma nonzero_acc_ok (u : F32.t) : F32.above_emin u -> F32.is_zero u = false -> acc_ok u.
Proof. intros H Hz. split; [exact H|]. destruct u as [[|]| | |]; try discriminate; reflexivity. Qed.

Lemma add_acc_ok (u v : F32.t) : acc_ok u -> F32.above_emin v -> acc_ok (u +. v).
Proof.
  intros [Hu Hnz] Hv.
  destruct u as [su|su| |su mu eu].
  - destruct su; [discriminate Hnz|].
    destruct v as [sv|sv| |sv mv ev].
    + destruct sv; split; [exact I | reflexivity | exact I | reflexivity].
    + split; [exact I | reflexivity].
    + split; [exact I | reflexivity].
    + split; [exact Hv | reflexivity].
  - destruct v as [sv|sv| |sv mv ev]; try (split; [exact I | reflexivity]).
    destruct su, sv; split; first [exact I | reflexivity].
  - split; [exact I | reflexivity].
  - destruct v as [sv|sv| |sv mv ev]; try (split; [exact I | reflexivity]).
    + split; [exact Hu | reflexivity].
    + cbn [F32.above_emin] in Hu, Hv.
      unfold F32.add, SFadd.
      set (ez := Z.min eu ev).
      assert (Hez : F32.emin <= ez) by (unfold ez; lia).
      destruct (cond_Zopp su (Z.pos (fst (shl_align mu eu ez))) +
                cond_Zopp sv (Z.pos (fst (shl_align mv ev ez)))) as [|k|k];
        cbn [binary_normalize].
      * split; [exact I | reflexivity].
      * apply nonzero_acc_ok; [apply binary_round_above | apply binary_round_nonzero, Hez].
      * apply nonzero_acc_ok; [apply binary_round_above | apply binary_round_nonzero, Hez].
Qed.

Lemma add_sim_exact (u v v' : F32.t) :
  F32.is_neg_zero u = false -> F32.sim v v' -> u +. v = u +. v'.
Proof.
  intros Hu [->|[H1 H2]]; [reflexivity|].
  destruct v as [sv| | |]; try discriminate H1.
  destruct v' as [sv'| | |]; try discriminate H2.
  destruct u as [[|]|su| |su mu eu]; try discriminate Hu; destruct sv, sv'; reflexivity.
Qed.

Lemma fold_add_exact (l l' : list F32.t) (u : F32.t) :
  Forall2 F32.sim l l' -> Forall F32.above_emin l -> acc_ok u ->
  fold_left F32.add l u = fold_left F32.add l' u.
Proof.
  intros H. revert u. induction H as [|v v' l l' Hv _ IH]; intros u Ha Hu; cbn [fold_left].
  - reflexivity.
  - inversion Ha as [|? ? Hv0 Ha0]; subst.
    rewrite <- (add_sim_exact u v v' (proj2 Hu) Hv).
    apply IH; [exact Ha0 | apply add_acc_ok; assumption].
Qed.

Lemma terms_above_emin (WMM : ConstModel) (t : F32.t) (n m : Z) (v w : F32.t) :
  Forall F32.above_emin (px_terms WMM t n m v w) /\
  Forall F32.above_emin (py_terms WMM t n m v w) /\
  Forall F32.above_emin (pz_terms WMM t n m v w).
Proof.
  unfold px_terms, py_terms, pz_terms.
  destruct (raise_guard n m), (lower_guard n m), (order1_guard n m), (vertical_guard n m);
    cbn [app]; repeat split;
    repeat (apply Forall_cons; [apply mul_above_emin|]); apply Forall_nil.
Qed.

Lemma zero_acc_ok : acc_ok F32.zero.
Proof. split; [exact I | reflexivity]. Qed.

(** Coefficients that differ only in the sign of a zero give the same
    sums, bit for bit. *)
Lemma GeoMag_sums_exact (t : F32.t) (p : Vector) (W1 W2 : ConstModel) :
  values_sim W1 W2 t -> GeoMag_sums t p W1 = GeoMag_sums t p W2.
Proof.
  intros Hsim. unfold GeoMag_sums, gradient_sum.
  assert (Ex : forall l,
    (forall nm, In nm l -> visited (fst nm) (snd nm)) ->
    fold_left F32.add
      (flat_map (fun nm => px_terms W1 t (fst nm) (snd nm) (V p (fst nm) (snd nm))
                             (W p (fst nm) (snd nm))) l) F32.zero =
    fold_left F32.add
      (flat_map (fun nm => px_terms W2 t (fst nm) (snd nm) (V p (fst nm) (snd nm))
                             (W p (fst nm) (snd nm))) l) F32.zero).
  { intros l Hl. apply fold_add_exact; [| |exact zero_acc_ok].
    - apply flat_map_sim. intros nm Hnm. apply px_terms_sim; [exact Hsim | apply Hl, Hnm].
    - apply Forall_flat_map, Forall_forall. intros nm _. apply terms_above_emin. }
  assert (Ey : forall l,
    (forall nm, In nm l -> visited (fst nm) (snd nm)) ->
    fold_left F32.add
      (flat_map (fun nm => py_terms W1 t (fst nm) (snd nm) (V p (fst nm) (snd nm))
                             (W p (fst nm) (snd nm))) l) F32.zero =
    fold_left F32.add
      (flat_map (fun nm => py_terms W2 t (fst nm) (snd nm) (V p (fst nm) (snd nm))
                             (W p (fst nm) (snd nm))) l) F32.zero).
  { intros l Hl. apply fold_add_exact; [| |exact zero_acc_ok].
    - apply flat_map_sim. intros nm Hnm. apply py_terms_sim; [exact Hsim | apply Hl, Hnm].
    - apply Forall_flat_map, Forall_forall. intros nm _. apply terms_above_emin. }
  assert (Ez : forall l,
    (forall nm, In nm l -> visited (fst nm) (snd nm)) ->
    fold_left F32.add
      (flat_map (fun nm => pz_terms W1 t (fst nm) (snd nm) (V p (fst nm) (snd nm))
                             (W p (fst nm) (snd nm))) l) F32.zero =
    fold_left F32.add
      (flat_map (fun nm => pz_terms W2 t (fst nm) (snd nm) (V p (fst nm) (snd nm))
                             (W p (fst nm) (snd nm))) l) F32.zero).
  { intros l Hl. apply fold_add_exact; [| |exact zero_acc_ok].
    - apply flat_map_sim. intros nm Hnm. apply pz_terms_sim; [exact Hsim | apply Hl, Hnm].
    - apply Forall_flat_map, Forall_forall. intros nm _. apply terms_above_emin. }
  rewrite (Ex traversal traversal_visited), (Ey traversal traversal_visited),
          (Ez traversal traversal_visited).
  reflexivity.
Qed.

(** ** Integers stay small *)

Lemma int_expressions_small (n m : Z) :
  visited n m -> Forall (fun v => 0 <= v <= 156) (pass_ints n m).
Proof.
  intros Hv. unfold pass_ints.
  apply Forall_app; split;
    [|apply Forall_app; split; [|apply Forall_app; split; [|apply Forall_app; split]]].
  - unfold visited, NMAX in Hv. repeat constructor; unfold NMAX; lia.
  - unfold visited, NMAX in Hv.
    destruct (Z.eqb_spec n m); [destruct (Z.eqb_spec m 0); cbn [negb]|];
      repeat constructor; lia.
  - unfold visited, NMAX in Hv. unfold raise_guard.
    destruct ((m <? NMAX) && (n >=? m + 2)) eqn:E; repeat constructor;
      unfold NMAX in E; lia.
  - unfold visited, NMAX in Hv. unfold vertical_guard.
    destruct ((n >=? 2) && (n >? m)) eqn:E; repeat constructor; lia.
  - apply Forall_flat_map, Forall_forall. intros (d, o) Hin. cbn [fst snd].
    destruct (reads_in_domain n m d o Hv Hin) as [Hd Hdom].
    assert (Hi := index_bounds d o Hdom). rewrite NUMCOF_value in Hi.
    assert (H2 := index_double d o). unfold ConstModel.index in H2.
    unfold index_ints, ConstModel.index.
    destruct Hdom as (H0 & H1 & H3). unfold NMAX in * .
    assert (0 <= o * (2 * 12 - o + 1) <= 156) by nia.
    repeat constructor; try lia.
Qed.

Lemma in_traversal (n m : Z) : In (n, m) traversal <-> visited n m.
Proof.
  unfold traversal, visited. rewrite in_flat_map. split.
  - intros (m' & Hm' & Hin). unfold column_pairs in Hin.
    apply in_map_iff in Hin. destruct Hin as (n' & E & Hn'). inversion E; subst.
    apply in_zrange in Hm'. apply in_zrange in Hn'. unfold NMAX in * . lia.
  - intros H. exists m. split.
    + apply in_zrange. unfold NMAX in * . lia.
    + unfold column_pairs. apply in_map_iff. exists n. split; [reflexivity|].
      apply in_zrange. unfold NMAX in * . lia.
Qed.

(** * The claims *)

(** C1.  For every time, every position and every store, [GeoMag] returns
    [(-px * 1e-9, -py * 1e-9, -pz * 1e-9)] where [px], [py] and [pz] are
    the sums, over the traversal of [m] from 0 to [NMAX + 1] and of [n]
    from [m] to [NMAX + 1], of the terms of the four rules: the raise-order
    rule under [m < NMAX] and [n >= m + 2], weighted by
    [0.5 (n - m) (n - m - 1)], and the lower-order rule under [n >= 2] and
    [m >= 2], weighted by [0.5], both on [px] and [py]; the order-1 rule
    under [m = 1] and [n >= 2] with the zonal cosine coefficient; the
    vertical rule under [n >= 2] and [n > m], weighted by [n - m], on [pz];
    each with the time-corrected coefficients of degree [n - 1] and the
    table values [V(n, m)] and [W(n, m)]. *)
Theorem GeoMag_is_sum_of_contributions (t : F32.t) (p : Vector) (WMM : ConstModel) :
  wf_model WMM ->
  let px := gradient_sum p (px_terms WMM t) traversal in
  let py := gradient_sum p (py_terms WMM t) traversal in
  let pz := gradient_sum p (pz_terms WMM t) traversal in
  GeoMag t p WMM =
  Some {| x := -. px *. F32.nano; y := -. py *. F32.nano; z := -. pz *. F32.nano |}.
Proof.
  intros Hwf. cbv zeta. apply GeoMag_defined. exact Hwf.
Qed.

Lemma GeoMag_is_sum_of_contributions_witness :
  wf_model sample_model /\
  GeoMag sample_year sample_position sample_model =
  Some (GeoMag_sums sample_year sample_position sample_model).
Proof.
  split.
  - repeat split.
  - apply (GeoMag_is_sum_of_contributions sample_year sample_position sample_model).
    repeat split.
Defined.

(** C2.  Every lookup of the accumulation, [C] and [S] at [(n-1, m+1)]
    under the raise-order guard, at [(n-1, m-1)] under the lower-order
    guard, [C] at [(n-1, 0)] under the order-1 guard and [C] and [S] at
    [(n-1, m)] under the vertical guard, with [n] up to [NMAX + 1], has its
    pair inside the packing domain [0 <= order <= degree <= NMAX], so its
    index lies in [[0, NUMCOF)]; no pass reads outside an array and
    [GeoMag] returns a result. *)
Theorem lookups_in_bounds (t : F32.t) (p : Vector) (WMM : ConstModel) :
  wf_model WMM ->
  (forall n m d o, visited n m -> In (d, o) (reads n m) ->
     in_domain d o /\ 0 <= ConstModel.index d o < NUMCOF) /\
  (forall n m s,
     (forall d o, In (d, o) (reads n m) ->
        ConstModel.C WMM d o t <> None /\ ConstModel.S WMM d o t <> None) ->
     iteration WMM t (geometry p) n m s <> None) /\
  (forall n m s, visited n m -> iteration WMM t (geometry p) n m s <> None) /\
  (exists r, GeoMag t p WMM = Some r).
Proof.
  intros Hwf. split; [|split; [|split]].
  - intros n m d o Hv Hin.
    destruct (reads_in_domain n m d o Hv Hin) as [_ Hd].
    split; [exact Hd | apply index_bounds, Hd].
  - intros n m s H. apply iteration_reads. exact H.
  - intros n m s Hv. rewrite iteration_accumulated by assumption. discriminate.
  - eexists. apply GeoMag_defined. exact Hwf.
Qed.

Lemma lookups_in_bounds_witness :
  wf_model sample_model /\
  (in_domain 12 12 /\ 0 <= ConstModel.index 12 12 < NUMCOF) /\
  (exists r, GeoMag sample_year sample_position sample_model = Some r).
Proof.
  assert (Hwf : wf_model sample_model) by (repeat split).
  destruct (lookups_in_bounds sample_year sample_position sample_model Hwf)
    as (H1 & _ & _ & H4).
  split; [exact Hwf|]. split; [|exact H4].
  apply (H1 13 13 12 12).
  - unfold visited, NMAX. lia.
  - vm_compute. left. reflexivity.
Defined.

(** C3, as the program has it.  At every visited pair [(n, m)] the three
    scalars per family hold, after the pass, the entries [V(n, m)] and
    [W(n, m)] of the full table of the recurrence with seed
    [V(0,0) = R / sqrt(r^2)], [W(0,0) = 0], the diagonal step of the
    specification, and the vertical step
    [V(n,m) = ((2n-1) f V(n-1,m) - (n+m-1) g V(n-2,m)) * (1 / (n-m))],
    the product with the rounded reciprocal, where [V(m-1, m) = 0]
    (the same for [W]). *)
Theorem streaming_matches_table (t : F32.t) (p : Vector) (WMM : ConstModel) (n m : Z) :
  wf_model WMM -> visited n m ->
  exists s, regs_at t p WMM n m = Some s /\
            Vnm s = V p n m /\ Wnm s = W p n m /\
            Vtop s = V p m m /\ Wtop s = W p m m /\
            Vprev s = fst (below p n m) /\ Wprev s = snd (below p n m).
Proof.
  intros Hwf Hv. exists (table_regs t p WMM n m).
  split; [apply regs_at_table; assumption|].
  repeat split.
Qed.

Lemma streaming_matches_table_witness :
  wf_model sample_model /\ visited 5 0 /\
  exists s, regs_at sample_year sample_position sample_model 5 0 = Some s /\
            Vnm s = V sample_position 5 0 /\ Wnm s = W sample_position 5 0.
Proof.
  assert (Hwf : wf_model sample_model) by (repeat split).
  assert (Hv : visited 5 0) by (unfold visited, NMAX; lia).
  split; [exact Hwf|]. split; [exact Hv|].
  destruct (streaming_matches_table sample_year sample_position sample_model 5 0 Hwf Hv)
    as (s & H1 & H2 & H3 & _).
  exists s. auto.
Defined.

(** C3 as stated fails: with the vertical step dividing by [n - m], the
    table entry [V(5, 0)] at the sample position differs in its last bit
    from the value the loop holds after the pass at [(5, 0)]. *)
Lemma division_table_differs :
  wf_model sample_model /\ visited 5 0 /\
  F32.valid (x sample_position) = true /\
  F32.valid (y sample_position) = true /\
  F32.valid (z sample_position) = true /\
  exists s, regs_at sample_year sample_position sample_model 5 0 = Some s /\
            Vnm s = S754_finite true 13489047 (-26) /\
            V_spec sample_position 5 0 = S754_finite true 13489046 (-26) /\
            Vnm s <> V_spec sample_position 5 0.
Proof.
  split; [repeat split|]. split; [unfold visited, NMAX; lia|].
  do 3 (split; [reflexivity|]).
  assert (Hv : visited 5 0) by (unfold visited, NMAX; lia).
  exists (table_regs sample_year sample_position sample_model 5 0).
  split; [apply regs_at_table; [repeat split | exact Hv]|].
  assert (E1 : V sample_position 5 0 = S754_finite true 13489047 (-26))
    by (vm_compute; reflexivity).
  assert (E2 : V_spec sample_position 5 0 = S754_finite true 13489046 (-26))
    by (vm_compute; reflexivity).
  cbn [Vnm table_regs]. rewrite E1, E2. repeat split. discriminate.
Qed.

(** C4.  For every pair [(n, m)] with [0 <= m <= n <= NMAX] the index
    [m (2 NMAX - m + 1) / 2 + n] lies in [[0, (NMAX+1)(NMAX+2)/2)]; the map
    is injective on that domain, and every index of the range is the index
    of a pair: the packing is a bijection with no wasted slot. *)
Theorem index_bijection :
  (forall n m, in_domain n m -> 0 <= ConstModel.index n m < NUMCOF) /\
  (forall n m n' m', in_domain n m -> in_domain n' m' ->
     ConstModel.index n m = ConstModel.index n' m' -> n = n' /\ m = m') /\
  (forall i, 0 <= i < NUMCOF ->
     exists n m, in_domain n m /\ ConstModel.index n m = i).
Proof.
  split; [|split].
  - exact index_bounds.
  - exact index_injective.
  - exact index_surjective.
Qed.

Lemma index_bijection_witness :
  in_domain 7 3 /\ 0 <= 40 < NUMCOF /\
  0 <= ConstModel.index 7 3 < NUMCOF /\
  (ConstModel.index 7 3 = ConstModel.index 7 3 -> 7 = 7 /\ 3 = 3) /\
  (exists n m, in_domain n m /\ ConstModel.index n m = 40).
Proof.
  assert (Hd : in_domain 7 3) by (unfold in_domain, NMAX; lia).
  assert (Hi : 0 <= 40 < NUMCOF) by (rewrite NUMCOF_value; lia).
  destruct index_bijection as (H1 & H2 & H3).
  split; [exact Hd|]. split; [exact Hi|].
  split; [exact (H1 7 3 Hd)|]. split; [exact (H2 7 3 7 3 Hd Hd)|].
  exact (H3 40 Hi).
Defined.

(** C5.  For every degree [n] and order [m] with [0 <= m <= n <= NMAX]
    and every decimal year [t], [C] and [S] return
    [mainField[index] + (t - epoch) * secularVariation[index]] from the
    cosine, respectively sine, tables. *)
Theorem lookup_is_linear_extrapolation (WMM : ConstModel) (n m : Z) (t : F32.t) :
  wf_model WMM -> in_domain n m ->
  exists mc vc ms vs,
    read (Main_Field_Coeff_C WMM) (ConstModel.index n m) = Some mc /\
    read (Secular_Var_Coeff_C WMM) (ConstModel.index n m) = Some vc /\
    read (Main_Field_Coeff_S WMM) (ConstModel.index n m) = Some ms /\
    read (Secular_Var_Coeff_S WMM) (ConstModel.index n m) = Some vs /\
    ConstModel.C WMM n m t = Some (mc +. (t -. epoch WMM) *. vc) /\
    ConstModel.S WMM n m t = Some (ms +. (t -. epoch WMM) *. vs).
Proof.
  intros (H1 & H2 & H3 & H4) Hd. apply index_bounds in Hd.
  unfold ConstModel.C, ConstModel.S.
  rewrite (read_in_bounds _ _ H1 Hd), (read_in_bounds _ _ H2 Hd),
          (read_in_bounds _ _ H3 Hd), (read_in_bounds _ _ H4 Hd).
  do 4 eexists. repeat split.
Qed.

Lemma lookup_is_linear_extrapolation_witness :
  wf_model sample_model /\ in_domain 1 1 /\
  ConstModel.C sample_model 1 1 sample_year = Some (#(-1451) +. (#2022 -. #2020) *. #8) /\
  ConstModel.S sample_model 1 1 sample_year = Some (#4653 +. (#2022 -. #2020) *. #(-25)).
Proof.
  assert (Hwf : wf_model sample_model) by (repeat split).
  assert (Hd : in_domain 1 1) by (unfold in_domain, NMAX; lia).
  split; [exact Hwf|]. split; [exact Hd|].
  destruct (lookup_is_linear_extrapolation sample_model 1 1 sample_year Hwf Hd)
    as (mc & vc & ms & vs & E1 & E2 & E3 & E4 & HC & HS).
  vm_compute in E1, E2, E3, E4.
  inversion E1; inversion E2; inversion E3; inversion E4; subst.
  split; [exact HC | exact HS].
Defined.

(** C6 as stated fails: at the visited pair [(4, 2)] the raise-order, the
    lower-order and the vertical guards all hold. *)
Lemma rules_overlap_at_4_2 :
  visited 4 2 /\
  raise_guard 4 2 = true /\ lower_guard 4 2 = true /\ vertical_guard 4 2 = true /\
  ~ (count_true (guards 4 2) <= 1)%nat.
Proof.
  split; [unfold visited, NMAX; lia|].
  repeat (split; [reflexivity|]). vm_compute. lia.
Qed.

(** C6, as the program has it.  At every visited pair the lower-order and
    the order-1 guards exclude each other, so at most three of the four
    guards hold; the raise-order guard implies the vertical guard, and the
    lower-order guard implies it off the diagonal. *)
Theorem rules_mostly_overlap (n m : Z) :
  visited n m ->
  (lower_guard n m && order1_guard n m = false) /\
  (count_true (guards n m) <= 3)%nat /\
  (raise_guard n m = true -> vertical_guard n m = true) /\
  (lower_guard n m = true -> n > m -> vertical_guard n m = true).
Proof.
  unfold visited, guards, count_true, raise_guard, lower_guard, order1_guard,
    vertical_guard, NMAX.
  intros Hv.
  destruct (m <? 12) eqn:E1, (n >=? m + 2) eqn:E2, (n >=? 2) eqn:E3,
    (m >=? 2) eqn:E4, (m =? 1) eqn:E5, (n >? m) eqn:E6;
    cbn; repeat split; try lia; try discriminate.
Qed.

Lemma rules_mostly_overlap_witness :
  visited 4 2 /\ (count_true (guards 4 2) <= 3)%nat.
Proof.
  assert (Hv : visited 4 2) by (unfold visited, NMAX; lia).
  split; [exact Hv|].
  exact (proj1 (proj2 (rules_mostly_overlap 4 2 Hv))).
Defined.

(** C7 as stated fails.  With an infinite secular-variation entry the
    lookup at the epoch is a NaN, not the main-field entry, and [GeoMag] at
    the epoch returns NaNs while the store with zeroed rates gives a finite
    field; with a main-field entry of negative zero and a rate of positive
    zero, as at [(11, 1)] in the sine tables of [WMM2015v2], the lookup at
    the epoch returns positive zero. *)
Lemma epoch_identity_fails :
  (wf_model infinite_rate_model /\ in_domain 1 0 /\
   read (Main_Field_Coeff_C infinite_rate_model) (ConstModel.index 1 0) = Some (#(-29404)) /\
   ConstModel.C infinite_rate_model 1 0 (epoch infinite_rate_model) = Some S754_nan /\
   GeoMag (epoch infinite_rate_model) sample_position infinite_rate_model =
     Some {| x := S754_nan; y := S754_nan; z := S754_nan |} /\
   GeoMag (epoch infinite_rate_model) sample_position (zero_sv infinite_rate_model) <>
     GeoMag (epoch infinite_rate_model) sample_position infinite_rate_model) /\
  (wf_model neg_zero_model /\ finite_variation neg_zero_model /\
   in_domain 11 1 /\
   read (Main_Field_Coeff_S neg_zero_model) (ConstModel.index 11 1) = Some (S754_zero true) /\
   read (Secular_Var_Coeff_S neg_zero_model) (ConstModel.index 11 1) = Some (S754_zero false) /\
   ConstModel.S neg_zero_model 11 1 (epoch neg_zero_model) = Some (S754_zero false)).
Proof.
  split.
  - split; [repeat split|]. split; [unfold in_domain, NMAX; lia|].
    split; [reflexivity|]. split; [vm_compute; reflexivity|].
    split; [vm_compute; reflexivity|]. vm_compute. discriminate.
  - split; [repeat split|]. split; [repeat split|].
    split; [unfold in_domain, NMAX; lia|].
    repeat split; vm_compute; reflexivity.
Qed.

(** C7, as the program has it.  For every store whose epoch and
    secular-variation entries are finite, and every [(n, m)] of the packing
    domain, [C] and [S] at [t = epoch] return the main-field entry, except
    that an entry of negative zero may come back as positive zero;
    consequently [GeoMag] at [t = epoch] returns, bit for bit, the field of
    the store with all secular-variation entries replaced by zero. *)
Theorem epoch_identity (p : Vector) (WMM : ConstModel) :
  wf_model WMM -> finite_variation WMM ->
  (forall n m, in_domain n m ->
     exists mc ms c d,
       read (Main_Field_Coeff_C WMM) (ConstModel.index n m) = Some mc /\
       read (Main_Field_Coeff_S WMM) (ConstModel.index n m) = Some ms /\
       ConstModel.C WMM n m (epoch WMM) = Some c /\
       ConstModel.S WMM n m (epoch WMM) = Some d /\
       (c = mc \/ (mc = S754_zero true /\ c = F32.zero)) /\
       (d = ms \/ (ms = S754_zero true /\ d = F32.zero))) /\
  (exists r,
     GeoMag (epoch WMM) p WMM = Some r /\
     GeoMag (epoch WMM) p (zero_sv WMM) = Some r).
Proof.
  intros Hwf Hfin. split.
  - intros n m Hd.
    destruct Hfin as (Hep & HC & HS).
    assert (Hi := index_bounds n m Hd).
    destruct Hwf as (L1 & L2 & L3 & L4).
    exists (nth (Z.to_nat (ConstModel.index n m)) (Main_Field_Coeff_C WMM) F32.zero),
           (nth (Z.to_nat (ConstModel.index n m)) (Main_Field_Coeff_S WMM) F32.zero).
    do 2 eexists.
    split; [apply read_in_bounds; assumption|].
    split; [apply read_in_bounds; assumption|].
    split; [apply C_in_domain; [repeat split|]; assumption|].
    split; [apply S_in_domain; [repeat split|]; assumption|].
    unfold valueC, valueS. rewrite !coefficient_at_epoch by assumption.
    split; apply add_signed_zero.
  - exists (GeoMag_sums (epoch WMM) p WMM).
    split; [apply GeoMag_defined; exact Hwf|].
    rewrite (GeoMag_sums_exact (epoch WMM) p WMM (zero_sv WMM)
               (values_sim_zero_sv WMM Hfin)).
    apply GeoMag_defined, zero_sv_wf. exact Hwf.
Qed.

Lemma epoch_identity_witness :
  wf_model neg_zero_model /\ finite_variation neg_zero_model /\
  GeoMag (epoch neg_zero_model) sample_position neg_zero_model =
  GeoMag (epoch neg_zero_model) sample_position (zero_sv neg_zero_model).
Proof.
  assert (Hwf : wf_model neg_zero_model) by (repeat split).
  assert (Hfin : finite_variation neg_zero_model) by (repeat split).
  split; [exact Hwf|]. split; [exact Hfin|].
  destruct (epoch_identity sample_position neg_zero_model Hwf Hfin) as (_ & r & H1 & H2).
  rewrite H1, H2. reflexivity.
Defined.

(** C9.  [GeoMag] always terminates, after a number of passes through the
    inner loop body that depends on [NMAX] alone, [(NMAX+2)(NMAX+3)/2],
    whatever the position, the time and the coefficients. *)
Theorem GeoMag_terminates_in_fixed_passes (t : F32.t) (p : Vector) (WMM : ConstModel) :
  wf_model WMM ->
  (exists r, GeoMag_exec t p WMM (Z.to_nat (((NMAX + 2) * (NMAX + 3)) / 2)) r) /\
  (forall k r, GeoMag_exec t p WMM k r -> k = 105%nat).
Proof.
  intros Hwf. split.
  - destruct (GeoMag_exec_complete _ _ _ _ (GeoMag_defined t p WMM Hwf)) as [k Hk].
    rewrite <- (GeoMag_exec_passes _ _ _ _ _ Hk). eexists. exact Hk.
  - intros k r Hk. apply GeoMag_exec_passes in Hk. exact Hk.
Qed.

Lemma GeoMag_terminates_in_fixed_passes_witness :
  wf_model sample_model /\
  exists r, GeoMag_exec sample_year sample_position sample_model 105 r.
Proof.
  assert (Hwf : wf_model sample_model) by (repeat split).
  split; [exact Hwf|].
  exact (proj1 (GeoMag_terminates_in_fixed_passes
                  sample_year sample_position sample_model Hwf)).
Defined.

(** C10.  The result of [GeoMag] never depends on slot 0 of the tables,
    the entries of [(n, m) = (0, 0)]: two stores with the same epoch and
    the same entries everywhere else give the same result for every time
    and position, because every pair a pass looks up has degree at least
    one and hence an index of at least one. *)
Theorem slot0_is_never_read (t : F32.t) (p : Vector) (W1 W2 : ConstModel) :
  same_but_slot0 W1 W2 ->
  GeoMag t p W1 = GeoMag t p W2 /\
  (forall n m d o, visited n m -> In (d, o) (reads n m) ->
     1 <= d /\ 1 <= ConstModel.index d o).
Proof.
  intros H. split.
  - apply GeoMag_agree, lookups_agree_slot0, H.
  - intros n m d o Hv Hin.
    destruct (reads_in_domain n m d o Hv Hin) as [Hd Hdom].
    split; [exact Hd | apply index_positive; assumption].
Qed.

Lemma slot0_is_never_read_witness :
  same_but_slot0 sample_model sample_model_poked /\
  GeoMag sample_year sample_position sample_model =
  GeoMag sample_year sample_position sample_model_poked.
Proof.
  assert (H : same_but_slot0 sample_model sample_model_poked).
  { split; [reflexivity|].
    repeat split; intros [|i] Hi; solve [lia | reflexivity]. }
  split; [exact H|].
  exact (proj1 (slot0_is_never_read sample_year sample_position _ _ H)).
Defined.

(** * Further properties of the code *)

(** ** Lookups at the edge of the tables *)

Lemma index_step_order (n m : Z) :
  0 <= m <= NMAX ->
  ConstModel.index (n + (NMAX - m)) m = ConstModel.index n (m + 1).
Proof.
  intros Hm.
  assert (H1 := index_double (n + (NMAX - m)) m).
  assert (H2 := index_double n (m + 1)).
  unfold NMAX in * . nia.
Qed.

(** X2.  The tables are stored order by order: inside an order the index
    grows by one with the degree, the first slot of order [m + 1] follows
    the last slot of order [m], the first pair has index 0 and the last
    pair the last index. *)
Theorem packing_is_order_major :
  (forall n m, ConstModel.index (n + 1) m = ConstModel.index n m + 1) /\
  (forall m, 0 <= m < NMAX ->
     ConstModel.index (m + 1) (m + 1) = ConstModel.index NMAX m + 1) /\
  ConstModel.index 0 0 = 0 /\
  ConstModel.index NMAX NMAX = NUMCOF - 1.
Proof.
  split; [|split; [|split]].
  - intros n m. unfold ConstModel.index. lia.
  - intros m Hm.
    rewrite <- (index_step_order (m + 1) m) by lia.
    unfold ConstModel.index. lia.
  - reflexivity.
  - reflexivity.
Qed.

Lemma packing_is_order_major_witness :
  0 <= 4 < NMAX /\ ConstModel.index 5 5 = ConstModel.index NMAX 4 + 1.
Proof.
  assert (H : 0 <= 4 < NMAX) by (unfold NMAX; lia).
  split; [exact H|].
  exact (proj1 (proj2 packing_is_order_major) 4 H).
Defined.

(** X3.  A pair whose degree exceeds [NMAX] is not rejected.  On a store
    with arrays of the declared length, for an order [0 <= m < NMAX] and a
    degree [n] with [m + 1 <= n <= NMAX], the lookups at degree
    [n + NMAX - m] and order [m], a pair outside the packing domain, return
    the coefficients of [(n, m + 1)]; one degree past the maximum, at
    [(NMAX + 1, m)], they return the diagonal coefficients of
    [(m + 1, m + 1)]. *)
Theorem lookup_past_max_degree_aliases (WMM : ConstModel) (n m : Z) (t : F32.t) :
  wf_model WMM -> 0 <= m < NMAX -> m + 1 <= n <= NMAX ->
  ~ in_domain (n + (NMAX - m)) m /\
  ConstModel.C WMM (n + (NMAX - m)) m t = Some (valueC WMM n (m + 1) t) /\
  ConstModel.S WMM (n + (NMAX - m)) m t = Some (valueS WMM n (m + 1) t) /\
  ConstModel.C WMM n (m + 1) t = Some (valueC WMM n (m + 1) t) /\
  ConstModel.S WMM n (m + 1) t = Some (valueS WMM n (m + 1) t) /\
  ConstModel.C WMM (NMAX + 1) m t = ConstModel.C WMM (m + 1) (m + 1) t /\
  ConstModel.S WMM (NMAX + 1) m t = ConstModel.S WMM (m + 1) (m + 1) t /\
  ConstModel.C WMM (NMAX + 1) m t <> None /\
  ConstModel.S WMM (NMAX + 1) m t <> None.
Proof.
  intros Hwf Hm Hn.
  assert (Hd : in_domain n (m + 1)) by (unfold in_domain; lia).
  assert (Hd1 : in_domain (m + 1) (m + 1)) by (unfold in_domain; lia).
  assert (HC := C_in_domain WMM n (m + 1) t Hwf Hd).
  assert (HS := S_in_domain WMM n (m + 1) t Hwf Hd).
  assert (EC : forall k, ConstModel.C WMM (k + (NMAX - m)) m t = ConstModel.C WMM k (m + 1) t).
  { intros k. unfold ConstModel.C. rewrite (index_step_order k m) by lia. reflexivity. }
  assert (ES : forall k, ConstModel.S WMM (k + (NMAX - m)) m t = ConstModel.S WMM k (m + 1) t).
  { intros k. unfold ConstModel.S. rewrite (index_step_order k m) by lia. reflexivity. }
  replace (NMAX + 1) with (m + 1 + (NMAX - m)) by lia.
  rewrite !EC, !ES, HC, HS.
  rewrite (C_in_domain WMM (m + 1) (m + 1) t Hwf Hd1),
          (S_in_domain WMM (m + 1) (m + 1) t Hwf Hd1).
  split; [unfold in_domain; lia|].
  repeat split; discriminate.
Qed.

Lemma lookup_past_max_degree_aliases_witness :
  wf_model sample_model /\ 0 <= 0 < NMAX /\ 0 + 1 <= 1 <= NMAX /\
  ConstModel.C sample_model 13 0 sample_year = Some (valueC sample_model 1 1 sample_year).
Proof.
  assert (Hwf : wf_model sample_model) by (repeat split).
  assert (Hm : 0 <= 0 < NMAX) by (unfold NMAX; lia).
  assert (Hn : 0 + 1 <= 1 <= NMAX) by (unfold NMAX; lia).
  split; [exact Hwf|]. split; [exact Hm|]. split; [exact Hn|].
  exact (proj1 (proj2 (lookup_past_max_degree_aliases sample_model 1 0 sample_year
                         Hwf Hm Hn))).
Defined.

(** ** Guards on the traversal *)

(** X4.  On the pairs the loops visit, the test [m < NMAX] of the first
    rule and the test [n >= 2] of the second never decide: the first guard
    is [n >= m + 2] and the second is [m >= 2].  The test [n >= 2] of the
    third and fourth rules only excludes degree [n = 1], the passes that
    would look up degree 0. *)
Theorem guards_on_the_traversal (n m : Z) :
  visited n m ->
  raise_guard n m = (n >=? m + 2) /\
  lower_guard n m = (m >=? 2) /\
  order1_guard n m = (m =? 1) && negb (n =? 1) /\
  vertical_guard n m = (n >? m) && negb (n =? 1).
Proof.
  unfold visited, raise_guard, lower_guard, order1_guard, vertical_guard, NMAX.
  intros Hv. repeat split; lia.
Qed.

Lemma guards_on_the_traversal_witness :
  visited 13 11 /\ raise_guard 13 11 = (13 >=? 11 + 2).
Proof.
  assert (Hv : visited 13 11) by (unfold visited, NMAX; lia).
  split; [exact Hv|].
  exact (proj1 (guards_on_the_traversal 13 11 Hv)).
Defined.

(** ** The order of the passes *)

Lemma run_pairs_app (WMM : ConstModel) (t : F32.t) (G : Geom) (l1 l2 : list (Z * Z)) (s : Regs) :
  run_pairs WMM t G (l1 ++ l2) s =
  (s' <- run_pairs WMM t G l1 s ;; run_pairs WMM t G l2 s').
Proof.
  revert s. induction l1 as [|nm l1 IH]; intros s; cbn [app run_pairs bind].
  - reflexivity.
  - destruct (iteration WMM t G (fst nm) (snd nm) s) as [s1|]; cbn [bind]; auto.
Qed.

Lemma inner_run (WMM : ConstModel) (t : F32.t) (G : Geom) (m : Z) (k : nat) (i : Z) (s : Regs) :
  for_count k i (fun n => iteration WMM t G n m) s =
  run_pairs WMM t G (map (fun n => (n, m)) (zrange i k)) s.
Proof.
  revert i s. induction k as [|k IH]; intros i s; cbn [for_count zrange map run_pairs fst snd].
  - reflexivity.
  - destruct (iteration WMM t G i m s) as [s1|]; cbn [bind]; auto.
Qed.

Lemma outer_run (WMM : ConstModel) (t : F32.t) (G : Geom) (k : nat) (i : Z) (s : Regs) :
  for_count k i (column WMM t G) s =
  run_pairs WMM t G (flat_map column_pairs (zrange i k)) s.
Proof.
  revert i s. induction k as [|k IH]; intros i s; cbn [for_count zrange flat_map].
  - reflexivity.
  - rewrite run_pairs_app. unfold column at 1, for_le, column_pairs at 1.
    replace (NMAX + 1 + 1 - i) with (NMAX + 2 - i) by lia.
    rewrite inner_run.
    destruct (run_pairs WMM t G
                (map (fun n => (n, i)) (zrange i (Z.to_nat (NMAX + 2 - i)))) s) as [s1|];
      cbn [bind]; auto.
Qed.

Lemma pair_eq_dec (u v : Z * Z) : {u = v} + {u <> v}.
Proof. decide equality; apply Z.eq_dec. Defined.

Lemma traversal_NoDup : NoDup traversal.
Proof.
  assert (E : nodup pair_eq_dec traversal = traversal) by (vm_compute; reflexivity).
  rewrite <- E. apply NoDup_nodup.
Qed.

(** X5.  The two loops apply the body once to each pair [(n, m)] with
    [0 <= m <= n <= NMAX + 1], by increasing order and, inside an order, by
    increasing degree: [GeoMag] is the body run along that list of 105
    pairs, followed by the scaling of line 155. *)
Theorem GeoMag_runs_along_traversal (t : F32.t) (p : Vector) (WMM : ConstModel) :
  GeoMag t p WMM =
    (s <- run_pairs WMM t (geometry p) traversal (initial p) ;; Some (result s)) /\
  (forall n m, In (n, m) traversal <-> visited n m) /\
  NoDup traversal /\
  increasing traversal = true /\
  length traversal = 105%nat.
Proof.
  split; [|split; [|split; [|split]]].
  - unfold GeoMag, for_le. rewrite outer_run. reflexivity.
  - exact in_traversal.
  - exact traversal_NoDup.
  - vm_compute. reflexivity.
  - vm_compute. reflexivity.
Qed.

(** ** Every coefficient is looked up *)

Lemma for_count_passes {A : Type} (body : Z -> A -> option A) (k : nat) (i : Z) (s s' : A) :
  for_count k i body s = Some s' ->
  forall j, i <= j < i + Z.of_nat k -> exists u u', body j u = Some u'.
Proof.
  revert i s. induction k as [|k IH]; intros i s Hrun j Hj; [lia|].
  cbn [for_count] in Hrun.
  destruct (body i s) as [s1|] eqn:E; cbn [bind] in Hrun; [|discriminate].
  destruct (Z.eq_dec j i) as [->|Hne].
  - exists s, s1. exact E.
  - apply (IH (i + 1) s1 Hrun). lia.
Qed.

Lemma pass_defined_of_GeoMag (t : F32.t) (p : Vector) (WMM : ConstModel) (n m : Z) :
  GeoMag t p WMM <> None -> visited n m ->
  exists u u', iteration WMM t (geometry p) n m u = Some u'.
Proof.
  intros Hdef (H0 & H1 & H2). unfold GeoMag in Hdef.
  destruct (for_le 0 (NMAX + 1) (column WMM t (geometry p)) (initial p)) as [s|] eqn:E;
    [|contradiction].
  unfold for_le in E.
  destruct (for_count_passes _ _ _ _ _ E m) as (u & u' & Hc); [unfold NMAX in * ; lia|].
  unfold column, for_le in Hc.
  apply (for_count_passes _ _ _ _ _ Hc n). lia.
Qed.

Lemma vertical_lookups_defined (WMM : ConstModel) (t : F32.t) (G : Geom) (n m : Z) (u u' : Regs) :
  iteration WMM t G n m u = Some u' -> vertical_guard n m = true ->
  ConstModel.C WMM (n - 1) m t <> None /\ ConstModel.S WMM (n - 1) m t <> None.
Proof.
  unfold iteration. intros H Hg.
  destruct (raise_rule WMM t n m (recurrence G n m u)) as [s1|]; cbn [bind] in H; [|discriminate].
  destruct (lower_rule WMM t n m s1) as [s2|]; cbn [bind] in H; [|discriminate].
  destruct (order1_rule WMM t n m s2) as [s3|]; cbn [bind] in H; [|discriminate].
  unfold vertical_rule in H. rewrite Hg in H.
  destruct (ConstModel.C WMM (n - 1) m t); cbn [bind] in H; [|discriminate].
  destruct (ConstModel.S WMM (n - 1) m t); cbn [bind] in H; [|discriminate].
  split; discriminate.
Qed.

Lemma read_defined_length (l : list F32.t) (i : Z) :
  0 <= i -> read l i <> None -> (Z.to_nat i < length l)%nat.
Proof.
  intros Hi H. unfold read in H. destruct (i <? 0) eqn:E; [lia|].
  apply nth_error_Some. exact H.
Qed.

(** X6.  Whenever [GeoMag] runs without reading outside an array, it has
    looked up both [C] and [S] at every pair of the packing domain of
    degree at least one: no coefficient but those of slot 0 is left
    unread, and each of the four arrays holds at least [NUMCOF] entries. *)
Theorem every_coefficient_is_looked_up (t : F32.t) (p : Vector) (WMM : ConstModel) :
  GeoMag t p WMM <> None ->
  (forall d o, 1 <= d -> in_domain d o ->
     In (d, o) (reads (d + 1) o) /\ visited (d + 1) o /\
     ConstModel.C WMM d o t <> None /\ ConstModel.S WMM d o t <> None) /\
  (Z.to_nat NUMCOF <= length (Main_Field_Coeff_C WMM))%nat /\
  (Z.to_nat NUMCOF <= length (Main_Field_Coeff_S WMM))%nat /\
  (Z.to_nat NUMCOF <= length (Secular_Var_Coeff_C WMM))%nat /\
  (Z.to_nat NUMCOF <= length (Secular_Var_Coeff_S WMM))%nat.
Proof.
  intros Hdef.
  assert (Hall : forall d o, 1 <= d -> in_domain d o ->
            In (d, o) (reads (d + 1) o) /\ visited (d + 1) o /\
            ConstModel.C WMM d o t <> None /\ ConstModel.S WMM d o t <> None).
  { intros d o Hd (H0 & H1 & H2).
    assert (Hv : visited (d + 1) o) by (unfold visited; lia).
    assert (Hg : vertical_guard (d + 1) o = true) by (unfold vertical_guard; lia).
    destruct (pass_defined_of_GeoMag t p WMM (d + 1) o Hdef Hv) as (u & u' & Hu).
    destruct (vertical_lookups_defined _ _ _ _ _ _ _ Hu Hg) as [HC HS].
    replace (d + 1 - 1) with d in HC, HS by lia.
    split; [|split; [exact Hv|split; assumption]].
    replace (d, o) with (d + 1 - 1, o) by (f_equal; lia).
    apply vertical_in_reads, Hg. }
  split; [exact Hall|].
  destruct (Hall NMAX NMAX) as (_ & _ & HC & HS);
    [unfold NMAX; lia | unfold in_domain, NMAX; lia|].
  unfold ConstModel.C in HC. unfold ConstModel.S in HS.
  change (ConstModel.index NMAX NMAX) with 90 in HC, HS.
  change (Z.to_nat NUMCOF) with (S (Z.to_nat 90)).
  destruct (read (Main_Field_Coeff_C WMM) 90) eqn:E1; [|contradiction].
  destruct (read (Secular_Var_Coeff_C WMM) 90) eqn:E2; [|contradiction].
  destruct (read (Main_Field_Coeff_S WMM) 90) eqn:E3; [|contradiction].
  destruct (read (Secular_Var_Coeff_S WMM) 90) eqn:E4; [|contradiction].
  repeat split; apply read_defined_length; try lia; congruence.
Qed.

Lemma every_coefficient_is_looked_up_witness :
  GeoMag sample_year sample_position sample_model <> None /\
  ConstModel.S sample_model 12 12 sample_year <> None.
Proof.
  assert (H : GeoMag sample_year sample_position sample_model <> None)
    by (vm_compute; discriminate).
  split; [exact H|].
  destruct (every_coefficient_is_looked_up sample_year sample_position sample_model H)
    as (Hall & _).
  refine (proj2 (proj2 (proj2 (Hall 12 12 _ _)))).
  - lia.
  - unfold in_domain, NMAX. lia.
Defined.

(** ** NaN in, NaN out *)

Lemma mul_nan_l (u : F32.t) : S754_nan *. u = S754_nan.
Proof. reflexivity. Qed.

Lemma mul_nan_r (u : F32.t) : u *. S754_nan = S754_nan.
Proof. destruct u; reflexivity. Qed.

Lemma add_nan_l (u : F32.t) : S754_nan +. u = S754_nan.
Proof. reflexivity. Qed.

Lemma add_nan_r (u : F32.t) : u +. S754_nan = S754_nan.
Proof. destruct u; reflexivity. Qed.

Lemma sub_nan_l (u : F32.t) : S754_nan -. u = S754_nan.
Proof. reflexivity. Qed.

Lemma sub_nan_r (u : F32.t) : u -. S754_nan = S754_nan.
Proof. destruct u; reflexivity. Qed.

Ltac nan_step :=
  repeat first [ rewrite mul_nan_l | rewrite mul_nan_r | rewrite add_nan_l
               | rewrite add_nan_r | rewrite sub_nan_l | rewrite sub_nan_r
               | progress change (-. S754_nan) with S754_nan ].

Lemma fold_add_from_nan (l : list F32.t) : fold_left F32.add l S754_nan = S754_nan.
Proof. induction l as [|v l IH]; cbn [fold_left]; [reflexivity|]. exact IH. Qed.

Lemma fold_add_nan (l : list F32.t) (u : F32.t) :
  In S754_nan l -> fold_left F32.add l u = S754_nan.
Proof.
  revert u. induction l as [|v l IH]; intros u Hin; [contradiction|].
  cbn [fold_left]. destruct Hin as [->|Hin].
  - rewrite add_nan_r. apply fold_add_from_nan.
  - apply IH, Hin.
Qed.

Lemma gradient_sum_nan (p : Vector) (terms : Z -> Z -> F32.t -> F32.t -> list F32.t) (n m : Z) :
  visited n m ->
  In S754_nan (terms n m (V p n m) (W p n m)) ->
  gradient_sum p terms traversal = S754_nan.
Proof.
  intros Hv Hin. unfold gradient_sum. apply fold_add_nan.
  apply in_flat_map. exists (n, m). split; [apply in_traversal, Hv | exact Hin].
Qed.

(** The terms of the pass at [(2, 0)], where the first and the fourth
    rule apply. *)
Lemma terms_2_0 (WMM : ConstModel) (t v w : F32.t) :
  px_terms WMM t 2 0 v w =
    [F32.half *. #(2 - 0) *. #(2 - 0 - 1) *.
       (valueC WMM (2 - 1) (0 + 1) t *. v +. valueS WMM (2 - 1) (0 + 1) t *. w)] /\
  py_terms WMM t 2 0 v w =
    [F32.half *. #(2 - 0) *. #(2 - 0 - 1) *.
       (-. valueC WMM (2 - 1) (0 + 1) t *. w +. valueS WMM (2 - 1) (0 + 1) t *. v)] /\
  pz_terms WMM t 2 0 v w =
    [#(2 - 0) *. (-. valueC WMM (2 - 1) 0 t *. v -. valueS WMM (2 - 1) 0 t *. w)].
Proof. repeat split. Qed.

Lemma visited_2_0 : visited 2 0.
Proof. unfold visited, NMAX. lia. Qed.

Lemma GeoMag_sums_nan_table (t : F32.t) (p : Vector) (WMM : ConstModel) :
  VW p 2 0 = (S754_nan, S754_nan) -> GeoMag_sums t p WMM = nan_field.
Proof.
  intros H.
  assert (HV : V p 2 0 = S754_nan) by (unfold V; rewrite H; reflexivity).
  assert (HW : W p 2 0 = S754_nan) by (unfold W; rewrite H; reflexivity).
  destruct (terms_2_0 WMM t (V p 2 0) (W p 2 0)) as (Ex & Ey & Ez).
  unfold GeoMag_sums, nan_field.
  rewrite (gradient_sum_nan p (px_terms WMM t) 2 0 visited_2_0),
          (gradient_sum_nan p (py_terms WMM t) 2 0 visited_2_0),
          (gradient_sum_nan p (pz_terms WMM t) 2 0 visited_2_0).
  - reflexivity.
  - rewrite Ez, HV, HW. nan_step. left. reflexivity.
  - rewrite Ey, HV, HW. nan_step. left. reflexivity.
  - rewrite Ex, HV, HW. nan_step. left. reflexivity.
Qed.

Lemma table_nan_of_zero_radius (p : Vector) :
  F32.is_zero (rsqrd p) = true -> VW p 2 0 = (S754_nan, S754_nan).
Proof.
  intros Hz.
  assert (Hg : exists s, g (geometry p) = S754_infinity s).
  { change (g (geometry p)) with (EARTH_R *. (EARTH_R /. rsqrd p)).
    destruct (rsqrd p) as [s| | |]; try discriminate Hz.
    exists s. destruct s; reflexivity. }
  destruct Hg as [s Hg].
  assert (H1 : VW p 1 0 = (S754_nan, S754_nan)).
  { rewrite (VW_vertical p 1 0) by lia.
    change (below p (1 - 1) 0) with (F32.zero, F32.zero).
    unfold vertical_step, by_reciprocal. destruct (VW p (1 - 1) 0) as [v1 w1].
    rewrite Hg.
    change (#(1 + 0 - 1) *. S754_infinity s *. F32.zero) with S754_nan.
    nan_step. reflexivity. }
  rewrite (VW_vertical p 2 0) by lia.
  change (2 - 1) with 1. rewrite H1.
  unfold vertical_step, by_reciprocal. destruct (below p 1 0) as [v2 w2].
  nan_step. reflexivity.
Qed.

(** X7.  There is no check of the position: when [x*x+y*y+z*z] evaluates
    to zero, at the origin or for coordinates so small that the squares
    underflow, [GeoMag] returns NaN in all three components, whatever the
    time and the store. *)
Theorem zero_radius_gives_NaN (t : F32.t) (p : Vector) (WMM : ConstModel) :
  wf_model WMM -> F32.is_zero (rsqrd p) = true -> GeoMag t p WMM = Some nan_field.
Proof.
  intros Hwf Hz. rewrite (GeoMag_defined t p WMM Hwf). f_equal.
  apply GeoMag_sums_nan_table, table_nan_of_zero_radius, Hz.
Qed.

Lemma zero_radius_gives_NaN_witness :
  wf_model sample_model /\
  F32.is_zero (rsqrd {| x := F32.zero; y := F32.zero; z := F32.zero |}) = true /\
  GeoMag sample_year {| x := F32.zero; y := F32.zero; z := F32.zero |} sample_model =
  Some nan_field.
Proof.
  assert (Hwf : wf_model sample_model) by (repeat split).
  assert (Hz : F32.is_zero (rsqrd {| x := F32.zero; y := F32.zero; z := F32.zero |}) = true)
    by reflexivity.
  split; [exact Hwf|]. split; [exact Hz|].
  exact (zero_radius_gives_NaN sample_year _ sample_model Hwf Hz).
Defined.

Lemma value_nan_time (mf sv : list F32.t) (ep t : F32.t) (n m : Z) :
  t = S754_nan \/ ep = S754_nan -> coefficient mf sv ep n m t = S754_nan.
Proof.
  intros [-> | ->]; unfold coefficient; nan_step; reflexivity.
Qed.

(** X8.  There is no check of the time either: when the decimal year or
    the epoch of the store is NaN, every lookup is NaN and [GeoMag] returns
    NaN in all three components, whatever the position. *)
Theorem NaN_time_gives_NaN (t : F32.t) (p : Vector) (WMM : ConstModel) :
  wf_model WMM -> t = S754_nan \/ epoch WMM = S754_nan ->
  (forall n m, in_domain n m ->
     ConstModel.C WMM n m t = Some S754_nan /\ ConstModel.S WMM n m t = Some S754_nan) /\
  GeoMag t p WMM = Some nan_field.
Proof.
  intros Hwf Ht. split.
  - intros n m Hd.
    rewrite (C_in_domain _ _ _ _ Hwf Hd), (S_in_domain _ _ _ _ Hwf Hd).
    unfold valueC, valueS. rewrite !value_nan_time by exact Ht. split; reflexivity.
  - rewrite (GeoMag_defined t p WMM Hwf). f_equal.
    destruct (terms_2_0 WMM t (V p 2 0) (W p 2 0)) as (Ex & Ey & Ez).
    unfold GeoMag_sums, nan_field.
    rewrite (gradient_sum_nan p (px_terms WMM t) 2 0 visited_2_0),
            (gradient_sum_nan p (py_terms WMM t) 2 0 visited_2_0),
            (gradient_sum_nan p (pz_terms WMM t) 2 0 visited_2_0).
    + reflexivity.
    + rewrite Ez. unfold valueC, valueS. rewrite !value_nan_time by exact Ht.
      nan_step. left. reflexivity.
    + rewrite Ey. unfold valueC, valueS. rewrite !value_nan_time by exact Ht.
      nan_step. left. reflexivity.
    + rewrite Ex. unfold valueC, valueS. rewrite !value_nan_time by exact Ht.
      nan_step. left. reflexivity.
Qed.

Lemma NaN_time_gives_NaN_witness :
  wf_model sample_model /\
  GeoMag S754_nan sample_position sample_model = Some nan_field.
Proof.
  assert (Hwf : wf_model sample_model) by (repeat split).
  split; [exact Hwf|].
  exact (proj2 (NaN_time_gives_NaN S754_nan sample_position sample_model Hwf
                  (or_introl eq_refl))).
Defined.

(** ** Rounding is symmetric *)

Lemma binary_round_aux_neg (s : bool) (m e : Z) (l : location) :
  binary_round_aux F32.prec F32.emax (negb s) m e l =
  SFopp (binary_round_aux F32.prec F32.emax s m e l).
Proof.
  unfold binary_round_aux.
  destruct (shr_fexp F32.prec F32.emax m e l) as [mrs e'].
  destruct (shr_fexp F32.prec F32.emax
              (round_nearest_even (shr_m mrs) (loc_of_shr_record mrs)) e' loc_Exact)
    as [mrs' e''].
  destruct (shr_m mrs') as [|q|q]; try reflexivity.
  destruct (e'' <=? F32.emax - F32.prec)%Z; reflexivity.
Qed.

Lemma binary_round_neg (s : bool) (m : positive) (e : Z) :
  binary_round F32.prec F32.emax (negb s) m e =
  SFopp (binary_round F32.prec F32.emax s m e).
Proof.
  unfold binary_round.
  destruct (shl_align m e
              (fexp F32.prec F32.emax (Z.pos (digits2_pos m) + e))) as [mz ez].
  apply binary_round_aux_neg.
Qed.

Lemma xorb_negb_l (u v : bool) : xorb (negb u) v = negb (xorb u v).
Proof. destruct u, v; reflexivity. Qed.

Lemma xorb_negb_r (u v : bool) : xorb u (negb v) = negb (xorb u v).
Proof. destruct u, v; reflexivity. Qed.

Lemma mul_neg_l (u v : F32.t) : -. u *. v = -. (u *. v).
Proof.
  destruct u as [su|su| |su mu eu], v as [sv|sv| |sv mv ev];
    cbn [F32.neg SFopp F32.mul SFmul]; rewrite ?xorb_negb_l; try reflexivity.
  apply binary_round_aux_neg.
Qed.

Lemma mul_neg_r (u v : F32.t) : u *. -. v = -. (u *. v).
Proof.
  destruct u as [su|su| |su mu eu], v as [sv|sv| |sv mv ev];
    cbn [F32.neg SFopp F32.mul SFmul]; rewrite ?xorb_negb_r; try reflexivity.
  apply binary_round_aux_neg.
Qed.

Lemma cond_Zopp_negb (s : bool) (k : Z) : cond_Zopp (negb s) k = - cond_Zopp s k.
Proof. destruct s; cbn; lia. Qed.

Lemma binary_normalize_opp (k e : Z) :
  F32.sim (binary_normalize F32.prec F32.emax (- k) e false)
          (SFopp (binary_normalize F32.prec F32.emax k e false)).
Proof.
  destruct k as [|q|q]; cbn [Z.opp binary_normalize SFopp].
  - apply sim_zeros.
  - left. apply (binary_round_neg false).
  - left. rewrite (binary_round_neg false). destruct (binary_round F32.prec F32.emax false q e);
      cbn [SFopp]; rewrite ?negb_involutive; reflexivity.
Qed.

Lemma add_neg_sim (u v : F32.t) : F32.sim (-. u +. -. v) (-. (u +. v)).
Proof.
  destruct u as [su|su| |su mu eu], v as [sv|sv| |sv mv ev];
    try (destruct su, sv; cbn; first [apply sim_refl | apply sim_zeros]);
    try (destruct su; cbn; apply sim_refl);
    try (destruct sv; cbn; apply sim_refl);
    try (cbn; apply sim_refl).
  cbn [F32.neg SFopp F32.add SFadd]. rewrite !cond_Zopp_negb, <- Z.opp_add_distr.
  apply binary_normalize_opp.
Qed.

Lemma neg_neg (u : F32.t) : -. -. u = u.
Proof. destruct u; cbn [F32.neg SFopp]; rewrite ?negb_involutive; reflexivity. Qed.

Lemma sub_neg_sim (u v : F32.t) : F32.sim (-. u -. -. v) (-. (u -. v)).
Proof.
  destruct u as [su|su| |su mu eu], v as [sv|sv| |sv mv ev];
    try (destruct su, sv; cbn; first [apply sim_refl | apply sim_zeros]);
    try (destruct su; cbn; apply sim_refl);
    try (destruct sv; cbn; apply sim_refl);
    try (cbn; apply sim_refl).
  cbn [F32.neg SFopp F32.sub SFsub]. rewrite !cond_Zopp_negb.
  match goal with
  | |- F32.sim (binary_normalize _ _ (- ?A - - ?B) _ _) _ =>
      replace (- A - - B) with (- (A - B)) by lia
  end.
  apply binary_normalize_opp.
Qed.

Lemma sim_sym (u v : F32.t) : F32.sim u v -> F32.sim v u.
Proof. intros [->|[H1 H2]]; [apply sim_refl | right; auto]. Qed.

Lemma sim_trans (u v w : F32.t) : F32.sim u v -> F32.sim v w -> F32.sim u w.
Proof.
  intros [->|[H1 H2]] [<-|[H3 H4]]; try (left; reflexivity); try (right; auto).
Qed.

(** ** Sums of related terms *)

(** Two stores and two times whose coefficients are related by [R] give
    sums related by [R], for any relation that the operations of the rules
    respect. *)
Section TermsRel.

Variable R : F32.t -> F32.t -> Prop.
Hypothesis R_add : forall u u' v v', R u u' -> R v v' -> R (u +. v) (u' +. v').
Hypothesis R_sub : forall u u' v v', R u u' -> R v v' -> R (u -. v) (u' -. v').
Hypothesis R_mul_l : forall k u u', R u u' -> R (k *. u) (k *. u').
Hypothesis R_mul_r : forall u u' v, R u u' -> R (u *. v) (u' *. v).
Hypothesis R_neg : forall u u', R u u' -> R (-. u) (-. u').
Hypothesis R_zero : R F32.zero F32.zero.

Variables W1 W2 : ConstModel.
Variables t1 t2 : F32.t.
Hypothesis Hval : forall d o, in_domain d o ->
  R (valueC W1 d o t1) (valueC W2 d o t2) /\ R (valueS W1 d o t1) (valueS W2 d o t2).

Ltac rel_step HC HS :=
  repeat first [ exact HC | exact HS | apply R_add | apply R_sub
               | apply R_mul_l | apply R_mul_r | apply R_neg ].

Lemma px_terms_rel (n m : Z) (v w : F32.t) :
  visited n m -> Forall2 R (px_terms W1 t1 n m v w) (px_terms W2 t2 n m v w).
Proof.
  intros Hv. unfold px_terms.
  repeat apply Forall2_app;
    match goal with
    | |- Forall2 _ (if ?c then _ else _) _ => destruct c eqn:E; [|constructor]
    end;
    [ destruct (raise_reads n m Hv E) as [_ D]
    | destruct (lower_reads n m Hv E) as [_ D]
    | destruct (order1_reads n m Hv E) as [_ D] ];
    destruct (Hval _ _ D) as [HC HS]; (apply Forall2_cons; [|apply Forall2_nil]);
    rel_step HC HS.
Qed.

Lemma py_terms_rel (n m : Z) (v w : F32.t) :
  visited n m -> Forall2 R (py_terms W1 t1 n m v w) (py_terms W2 t2 n m v w).
Proof.
  intros Hv. unfold py_terms.
  repeat apply Forall2_app;
    match goal with
    | |- Forall2 _ (if ?c then _ else _) _ => destruct c eqn:E; [|constructor]
    end;
    [ destruct (raise_reads n m Hv E) as [_ D]
    | destruct (lower_reads n m Hv E) as [_ D]
    | destruct (order1_reads n m Hv E) as [_ D] ];
    destruct (Hval _ _ D) as [HC HS]; (apply Forall2_cons; [|apply Forall2_nil]);
    rel_step HC HS.
Qed.

Lemma pz_terms_rel (n m : Z) (v w : F32.t) :
  visited n m -> Forall2 R (pz_terms W1 t1 n m v w) (pz_terms W2 t2 n m v w).
Proof.
  intros Hv. unfold pz_terms.
  destruct (vertical_guard n m) eqn:E; [|constructor].
  destruct (vertical_reads n m Hv E) as [_ D].
  destruct (Hval _ _ D) as [HC HS]. apply Forall2_cons; [|apply Forall2_nil].
  rel_step HC HS.
Qed.

Lemma fold_add_rel (l l' : list F32.t) (u u' : F32.t) :
  Forall2 R l l' -> R u u' -> R (fold_left F32.add l u) (fold_left F32.add l' u').
Proof.
  intros H. revert u u'. induction H as [|v v' l l' Hv _ IH]; intros u u' Hu; cbn [fold_left].
  - exact Hu.
  - apply IH, R_add; assumption.
Qed.

Lemma flat_map_rel {A : Type} (fa fb : A -> list F32.t) (l : list A) :
  (forall v, In v l -> Forall2 R (fa v) (fb v)) ->
  Forall2 R (flat_map fa l) (flat_map fb l).
Proof.
  induction l as [|v l IH]; intros H; cbn [flat_map].
  - constructor.
  - apply Forall2_app; [apply H; left; reflexivity|].
    apply IH. intros w Hw. apply H. right. exact Hw.
Qed.

Lemma GeoMag_sums_rel (p : Vector) :
  R (x (GeoMag_sums t1 p W1)) (x (GeoMag_sums t2 p W2)) /\
  R (y (GeoMag_sums t1 p W1)) (y (GeoMag_sums t2 p W2)) /\
  R (z (GeoMag_sums t1 p W1)) (z (GeoMag_sums t2 p W2)).
Proof.
  unfold GeoMag_sums, gradient_sum. cbn [x y z].
  repeat split; apply R_mul_r, R_neg;
    (apply fold_add_rel; [|exact R_zero]); apply flat_map_rel;
    intros nm Hnm; apply traversal_visited in Hnm.
  - apply px_terms_rel; exact Hnm.
  - apply py_terms_rel; exact Hnm.
  - apply pz_terms_rel; exact Hnm.
Qed.

End TermsRel.

(** ** Negating the store *)

Lemma anti_add (u u' v v' : F32.t) : anti u u' -> anti v v' -> anti (u +. v) (u' +. v').
Proof.
  unfold anti. intros Hu Hv.
  eapply sim_trans; [apply sim_add; eassumption | apply add_neg_sim].
Qed.

Lemma anti_sub (u u' v v' : F32.t) : anti u u' -> anti v v' -> anti (u -. v) (u' -. v').
Proof.
  unfold anti. intros Hu Hv.
  eapply sim_trans; [apply sim_sub; eassumption | apply sub_neg_sim].
Qed.

Lemma anti_mul_l (k u u' : F32.t) : anti u u' -> anti (k *. u) (k *. u').
Proof.
  unfold anti. intros Hu. rewrite <- mul_neg_r.
  apply sim_mul; [apply sim_refl | exact Hu].
Qed.

Lemma anti_mul_r (u u' v : F32.t) : anti u u' -> anti (u *. v) (u' *. v).
Proof.
  unfold anti. intros Hu. rewrite <- mul_neg_l.
  apply sim_mul; [exact Hu | apply sim_refl].
Qed.

Lemma anti_neg (u u' : F32.t) : anti u u' -> anti (-. u) (-. u').
Proof. unfold anti. intros Hu. apply sim_neg, Hu. Qed.

Lemma anti_zero : anti F32.zero F32.zero.
Proof. unfold anti. apply sim_zeros. Qed.

Lemma nth_map_neg (l : list F32.t) (i : nat) :
  (i < length l)%nat -> nth i (map F32.neg l) F32.zero = -. nth i l F32.zero.
Proof.
  intros Hi. rewrite (nth_indep _ F32.zero (-. F32.zero)) by (rewrite length_map; exact Hi).
  apply map_nth.
Qed.

Lemma neg_model_wf (WMM : ConstModel) : wf_model WMM -> wf_model (neg_model WMM).
Proof.
  intros (H1 & H2 & H3 & H4). unfold wf_model, neg_model.
  cbn [Main_Field_Coeff_C Main_Field_Coeff_S Secular_Var_Coeff_C Secular_Var_Coeff_S].
  rewrite !length_map. auto.
Qed.

Lemma coefficient_neg (mf sv : list F32.t) (ep t : F32.t) (n m : Z) :
  (Z.to_nat (ConstModel.index n m) < length mf)%nat ->
  (Z.to_nat (ConstModel.index n m) < length sv)%nat ->
  anti (coefficient mf sv ep n m t)
       (coefficient (map F32.neg mf) (map F32.neg sv) ep n m t).
Proof.
  intros H1 H2. unfold anti, coefficient.
  rewrite !nth_map_neg by assumption. rewrite mul_neg_r. apply add_neg_sim.
Qed.

(** X9.  The field is odd in the coefficients: negating every main-field
    and secular-variation entry of the store negates each component of the
    result of [GeoMag], up to the sign of a zero component, for every time
    and position. *)
Theorem negated_store_negates_field (t : F32.t) (p : Vector) (WMM : ConstModel) :
  wf_model WMM ->
  exists r r',
    GeoMag t p WMM = Some r /\
    GeoMag t p (neg_model WMM) = Some r' /\
    same_field r' (neg_field r).
Proof.
  intros Hwf.
  exists (GeoMag_sums t p WMM), (GeoMag_sums t p (neg_model WMM)).
  split; [apply GeoMag_defined, Hwf|].
  split; [apply GeoMag_defined, neg_model_wf, Hwf|].
  unfold same_field, neg_field. cbn [x y z].
  apply (GeoMag_sums_rel anti anti_add anti_sub anti_mul_l anti_mul_r anti_neg anti_zero
           WMM (neg_model WMM) t t).
  intros d o Hd. apply index_bounds in Hd.
  destruct Hwf as (H1 & H2 & H3 & H4).
  unfold valueC, valueS, neg_model.
  cbn [epoch Main_Field_Coeff_C Main_Field_Coeff_S Secular_Var_Coeff_C Secular_Var_Coeff_S].
  split; apply coefficient_neg; lia.
Qed.

Lemma negated_store_negates_field_witness :
  wf_model sample_model /\
  exists r r',
    GeoMag sample_year sample_position sample_model = Some r /\
    GeoMag sample_year sample_position (neg_model sample_model) = Some r' /\
    same_field r' (neg_field r).
Proof.
  assert (Hwf : wf_model sample_model) by (repeat split).
  split; [exact Hwf|].
  exact (negated_store_negates_field sample_year sample_position sample_model Hwf).
Defined.

(** ** Rates that are zero *)

Lemma finite_mul_zero (u v : F32.t) :
  F32.is_finite u = true -> F32.is_zero v = true -> F32.is_zero (u *. v) = true.
Proof. destruct u, v; intros H1 H2; try discriminate; reflexivity. Qed.

Lemma zero_mul_finite_is_zero (u v : F32.t) :
  F32.is_zero u = true -> F32.is_finite v = true -> F32.is_zero (u *. v) = true.
Proof. destruct u, v; intros H1 H2; try discriminate; reflexivity. Qed.

Lemma zero_nth (l : list F32.t) (i : nat) :
  zero_entries l -> F32.is_zero (nth i l F32.zero) = true.
Proof.
  unfold zero_entries. intros H. rewrite forallb_forall in H.
  destruct (Nat.lt_ge_cases i (length l)) as [Hi|Hi].
  - apply H, nth_In, Hi.
  - rewrite nth_overflow by exact Hi. reflexivity.
Qed.

Lemma add_zero_exact (u v : F32.t) :
  F32.is_neg_zero u = false -> F32.is_zero v = true -> u +. v = u.
Proof.
  intros Hu Hv. destruct v as [s| | |]; try discriminate Hv.
  apply add_signed_zero_exact, Hu.
Qed.

Lemma coefficient_zero_rate_sim (mf sv : list F32.t) (ep t1 t2 : F32.t) (n m : Z) :
  zero_entries sv ->
  F32.is_finite (t1 -. ep) = true -> F32.is_finite (t2 -. ep) = true ->
  F32.sim (coefficient mf sv ep n m t1) (coefficient mf sv ep n m t2).
Proof.
  intros Hsv H1 H2. unfold coefficient.
  apply sim_add; [apply sim_refl|]. right.
  split; apply finite_mul_zero; try assumption; apply zero_nth, Hsv.
Qed.

Lemma coefficient_zero_rate_exact (mf sv : list F32.t) (ep t1 t2 : F32.t) (n m : Z) :
  zero_entries sv -> no_neg_zero mf ->
  F32.is_finite (t1 -. ep) = true -> F32.is_finite (t2 -. ep) = true ->
  coefficient mf sv ep n m t1 = coefficient mf sv ep n m t2.
Proof.
  intros Hsv Hmf H1 H2. unfold coefficient.
  rewrite !add_zero_exact; try reflexivity;
    first [ apply no_neg_zero_nth, Hmf
          | apply finite_mul_zero; [assumption | apply zero_nth, Hsv] ].
Qed.

Lemma vector_ext (r r' : Vector) :
  x r = x r' -> y r = y r' -> z r = z r' -> r = r'.
Proof.
  destruct r as [x1 y1 z1], r' as [x2 y2 z2]. cbn [x y z].
  intros -> -> ->. reflexivity.
Qed.

Lemma zero_rate_values_sim (t1 t2 : F32.t) (WMM : ConstModel) :
  zero_entries (Secular_Var_Coeff_C WMM) -> zero_entries (Secular_Var_Coeff_S WMM) ->
  F32.is_finite (t1 -. epoch WMM) = true -> F32.is_finite (t2 -. epoch WMM) = true ->
  forall d o, in_domain d o ->
    F32.sim (valueC WMM d o t1) (valueC WMM d o t2) /\
    F32.sim (valueS WMM d o t1) (valueS WMM d o t2).
Proof.
  intros HC HS H1 H2 d o _. unfold valueC, valueS.
  split; apply coefficient_zero_rate_sim; assumption.
Qed.

Lemma zero_rate_values_eq (t1 t2 : F32.t) (WMM : ConstModel) :
  zero_entries (Secular_Var_Coeff_C WMM) -> zero_entries (Secular_Var_Coeff_S WMM) ->
  no_neg_zero_main WMM ->
  F32.is_finite (t1 -. epoch WMM) = true -> F32.is_finite (t2 -. epoch WMM) = true ->
  forall d o, in_domain d o ->
    valueC WMM d o t1 = valueC WMM d o t2 /\ valueS WMM d o t1 = valueS WMM d o t2.
Proof.
  intros HC HS (HmC & HmS) H1 H2 d o _. unfold valueC, valueS.
  split; apply coefficient_zero_rate_exact; assumption.
Qed.

Lemma GeoMag_sums_sim_times (t1 t2 : F32.t) (p : Vector) (W1 W2 : ConstModel) :
  (forall d o, in_domain d o ->
     F32.sim (valueC W1 d o t1) (valueC W2 d o t2) /\
     F32.sim (valueS W1 d o t1) (valueS W2 d o t2)) ->
  same_field (GeoMag_sums t1 p W1) (GeoMag_sums t2 p W2).
Proof.
  intros Hval.
  exact (GeoMag_sums_rel F32.sim sim_add sim_sub
           (fun k u u' H => sim_mul k k u u' (sim_refl k) H)
           (fun u u' v H => sim_mul u u' v v H (sim_refl v))
           sim_neg (sim_refl F32.zero) W1 W2 t1 t2 Hval p).
Qed.

Lemma GeoMag_sums_eq_times (t1 t2 : F32.t) (p : Vector) (W1 W2 : ConstModel) :
  (forall d o, in_domain d o ->
     valueC W1 d o t1 = valueC W2 d o t2 /\ valueS W1 d o t1 = valueS W2 d o t2) ->
  GeoMag_sums t1 p W1 = GeoMag_sums t2 p W2.
Proof.
  intros Hval.
  destruct (GeoMag_sums_rel eq
              (fun u u' v v' Hu Hv => f_equal2 F32.add Hu Hv)
              (fun u u' v v' Hu Hv => f_equal2 F32.sub Hu Hv)
              (fun k u u' H => f_equal (F32.mul k) H)
              (fun u u' v H => f_equal (fun q => q *. v) H)
              (fun u u' H => f_equal F32.neg H)
              eq_refl W1 W2 t1 t2 Hval p) as (Ex & Ey & Ez).
  apply vector_ext; assumption.
Qed.

(** X10.  With every secular-variation entry zero the time plays no part:
    for any two times whose difference to the epoch is finite, [GeoMag]
    returns the same field, component by component up to the sign of a
    zero, and bit for bit when no main-field entry is a negative zero. *)
Theorem zero_rates_make_time_irrelevant (t1 t2 : F32.t) (p : Vector) (WMM : ConstModel) :
  wf_model WMM ->
  zero_entries (Secular_Var_Coeff_C WMM) -> zero_entries (Secular_Var_Coeff_S WMM) ->
  F32.is_finite (t1 -. epoch WMM) = true -> F32.is_finite (t2 -. epoch WMM) = true ->
  (exists r1 r2,
     GeoMag t1 p WMM = Some r1 /\ GeoMag t2 p WMM = Some r2 /\ same_field r1 r2) /\
  (no_neg_zero_main WMM -> GeoMag t1 p WMM = GeoMag t2 p WMM).
Proof.
  intros Hwf HC HS H1 H2. split.
  - exists (GeoMag_sums t1 p WMM), (GeoMag_sums t2 p WMM).
    split; [apply GeoMag_defined, Hwf|]. split; [apply GeoMag_defined, Hwf|].
    apply GeoMag_sums_sim_times, zero_rate_values_sim; assumption.
  - intros Hnz.
    rewrite (GeoMag_defined t1 p WMM Hwf), (GeoMag_defined t2 p WMM Hwf).
    apply f_equal, GeoMag_sums_eq_times, zero_rate_values_eq; assumption.
Qed.

Lemma zero_rates_make_time_irrelevant_witness :
  wf_model (zero_sv sample_model) /\
  zero_entries (Secular_Var_Coeff_C (zero_sv sample_model)) /\
  zero_entries (Secular_Var_Coeff_S (zero_sv sample_model)) /\
  F32.is_finite (#2020 -. epoch (zero_sv sample_model)) = true /\
  F32.is_finite (#2030 -. epoch (zero_sv sample_model)) = true /\
  no_neg_zero_main (zero_sv sample_model) /\
  GeoMag (#2020) sample_position (zero_sv sample_model) =
  GeoMag (#2030) sample_position (zero_sv sample_model).
Proof.
  assert (Hwf : wf_model (zero_sv sample_model)) by (repeat split).
  assert (HC : zero_entries (Secular_Var_Coeff_C (zero_sv sample_model))) by reflexivity.
  assert (HS : zero_entries (Secular_Var_Coeff_S (zero_sv sample_model))) by reflexivity.
  assert (H1 : F32.is_finite (#2020 -. epoch (zero_sv sample_model)) = true) by reflexivity.
  assert (H2 : F32.is_finite (#2030 -. epoch (zero_sv sample_model)) = true) by reflexivity.
  assert (Hnz : no_neg_zero_main (zero_sv sample_model)) by (repeat split).
  do 6 (split; [assumption|]).
  exact (proj2 (zero_rates_make_time_irrelevant (#2020) (#2030) sample_position
                  (zero_sv sample_model) Hwf HC HS H1 H2) Hnz).
Defined.

(** ** A store of zeros *)

Lemma is_zero_add (u v : F32.t) :
  F32.is_zero u = true -> F32.is_zero v = true -> F32.is_zero (u +. v) = true.
Proof. destruct u as [[|]| | |], v as [[|]| | |]; intros; try discriminate; reflexivity. Qed.

Lemma is_zero_sub (u v : F32.t) :
  F32.is_zero u = true -> F32.is_zero v = true -> F32.is_zero (u -. v) = true.
Proof. destruct u as [[|]| | |], v as [[|]| | |]; intros; try discriminate; reflexivity. Qed.

Lemma is_zero_neg (u : F32.t) : F32.is_zero u = true -> F32.is_zero (-. u) = true.
Proof. destruct u; intros; try discriminate; reflexivity. Qed.

Lemma fold_add_zeros (l : list F32.t) :
  Forall (fun u => F32.is_zero u = true) l -> fold_left F32.add l F32.zero = F32.zero.
Proof.
  induction 1 as [|u l Hu _ IH]; cbn [fold_left]; [reflexivity|].
  replace (F32.zero +. u) with F32.zero; [exact IH|].
  destruct u as [[|]| | |]; try discriminate Hu; reflexivity.
Qed.

Lemma weights_finite_visited (n m : Z) :
  visited n m ->
  F32.is_finite (F32.half *. #(n - m) *. #(n - m - 1)) = true /\
  F32.is_finite (#(n - m)) = true.
Proof.
  intros Hv. apply in_traversal in Hv.
  assert (Hall : forallb weights_finite traversal = true) by (vm_compute; reflexivity).
  rewrite forallb_forall in Hall. apply Hall in Hv.
  unfold weights_finite in Hv. cbn [fst snd] in Hv.
  apply andb_true_iff in Hv. exact Hv.
Qed.

Lemma finite_table_visited (p : Vector) (n m : Z) :
  finite_table p -> visited n m ->
  F32.is_finite (V p n m) = true /\ F32.is_finite (W p n m) = true.
Proof.
  unfold finite_table. intros H Hv. rewrite forallb_forall in H.
  apply in_traversal in Hv. apply H in Hv. cbn [fst snd] in Hv.
  apply andb_true_iff in Hv. exact Hv.
Qed.

Section ZeroStore.

Variable WMM : ConstModel.
Variable t : F32.t.
Hypothesis Hzero : zero_store WMM.
Hypothesis Hdt : F32.is_finite (t -. epoch WMM) = true.

Lemma zero_store_values (d o : Z) :
  F32.is_zero (valueC WMM d o t) = true /\ F32.is_zero (valueS WMM d o t) = true.
Proof.
  destruct Hzero as (H1 & H2 & H3 & H4). unfold valueC, valueS, coefficient.
  split; apply is_zero_add; try (apply zero_nth; assumption);
    apply finite_mul_zero; try exact Hdt; apply zero_nth; assumption.
Qed.

Ltac zero_step :=
  repeat first [ apply (proj1 (zero_store_values _ _))
               | apply (proj2 (zero_store_values _ _))
               | apply is_zero_add | apply is_zero_sub | apply is_zero_neg
               | apply zero_mul_finite_is_zero; [|assumption] ].

Lemma zero_store_terms (n m : Z) (v w : F32.t) :
  visited n m -> F32.is_finite v = true -> F32.is_finite w = true ->
  Forall (fun u => F32.is_zero u = true) (px_terms WMM t n m v w) /\
  Forall (fun u => F32.is_zero u = true) (py_terms WMM t n m v w) /\
  Forall (fun u => F32.is_zero u = true) (pz_terms WMM t n m v w).
Proof.
  intros Hv Hfv Hfw.
  destruct (weights_finite_visited n m Hv) as [Hw1 Hw2].
  assert (Hhalf : F32.is_finite F32.half = true) by reflexivity.
  unfold px_terms, py_terms, pz_terms.
  destruct (raise_guard n m), (lower_guard n m), (order1_guard n m), (vertical_guard n m);
    cbn [app]; repeat split; repeat apply Forall_cons; try apply Forall_nil;
    try (apply finite_mul_zero; [assumption|]); zero_step.
Qed.

Lemma zero_store_sums (p : Vector) :
  finite_table p ->
  GeoMag_sums t p WMM =
  {| x := S754_zero true; y := S754_zero true; z := S754_zero true |}.
Proof.
  intros Hp. unfold GeoMag_sums, gradient_sum.
  rewrite !fold_add_zeros; [reflexivity| | |];
    apply Forall_flat_map, Forall_forall; intros (n, m) Hin; cbn [fst snd];
    apply in_traversal in Hin;
    destruct (finite_table_visited p n m Hp Hin) as [HV HW];
    apply (zero_store_terms n m _ _ Hin HV HW).
Qed.

End ZeroStore.

(** X11.  A store whose main-field and secular-variation entries are all
    zero gives a zero field: when the time differs from the epoch by a
    finite amount and the table values at the position are finite, each
    component of the result of [GeoMag] is a negative zero. *)
Theorem zero_store_gives_zero_field (t : F32.t) (p : Vector) (WMM : ConstModel) :
  wf_model WMM -> zero_store WMM ->
  F32.is_finite (t -. epoch WMM) = true -> finite_table p ->
  GeoMag t p WMM =
  Some {| x := S754_zero true; y := S754_zero true; z := S754_zero true |}.
Proof.
  intros Hwf Hz Hdt Hp. rewrite (GeoMag_defined t p WMM Hwf). f_equal.
  apply zero_store_sums; assumption.
Qed.

Lemma zero_store_gives_zero_field_witness :
  wf_model zero_model /\ zero_store zero_model /\
  F32.is_finite (sample_year -. epoch zero_model) = true /\
  finite_table sample_position /\
  GeoMag sample_year sample_position zero_model =
  Some {| x := S754_zero true; y := S754_zero true; z := S754_zero true |}.
Proof.
  assert (Hwf : wf_model zero_model) by (repeat split).
  assert (Hz : zero_store zero_model) by (repeat split).
  assert (Hdt : F32.is_finite (sample_year -. epoch zero_model) = true) by reflexivity.
  assert (Hp : finite_table sample_position) by (vm_compute; reflexivity).
  do 4 (split; [assumption|]).
  exact (zero_store_gives_zero_field sample_year sample_position zero_model Hwf Hz Hdt Hp).
Defined.

(** ** The sine coefficients of order 0 *)

Lemma finite_mul_inv (u v : F32.t) :
  F32.is_finite (u *. v) = true -> F32.is_finite u = true /\ F32.is_finite v = true.
Proof.
  destruct u as [su|su| |su mu eu], v as [sv|sv| |sv mv ev]; intros H;
    try discriminate H; split; reflexivity.
Qed.

Lemma finite_sub_inv (u v : F32.t) :
  F32.is_finite (u -. v) = true -> F32.is_finite u = true /\ F32.is_finite v = true.
Proof.
  destruct u as [su|su| |su mu eu], v as [sv|sv| |sv mv ev]; intros H;
    try discriminate H; try (split; reflexivity);
    destruct su, sv; discriminate H.
Qed.

(** In the column of order 0 the [W] scalar stays a zero. *)
Lemma W_order0_zero (p : Vector) (k : nat) :
  finite_table p ->
  forall n, 0 <= n <= NMAX + 1 -> (Z.to_nat n <= k)%nat -> F32.is_zero (W p n 0) = true.
Proof.
  intros Hp. induction k as [|k IH]; intros n Hn Hk.
  - replace n with 0 by lia. reflexivity.
  - destruct (Z.eq_dec n 0) as [->|Hne]; [reflexivity|].
    assert (Hv : visited n 0) by (unfold visited; lia).
    destruct (finite_table_visited p n 0 Hp Hv) as [HV _].
    assert (Hw1 : F32.is_zero (W p (n - 1) 0) = true) by (apply IH; lia).
    assert (Hw2 : F32.is_zero (snd (below p (n - 1) 0)) = true).
    { unfold below. destruct (Z.eqb_spec (n - 1) 0); [reflexivity|].
      apply (IH (n - 1 - 1)); lia. }
    unfold V in HV. unfold W in Hw1 |- * .
    rewrite (VW_vertical p n 0) in HV |- * by lia.
    unfold vertical_step, by_reciprocal in HV |- * .
    destruct (VW p (n - 1) 0) as [v1 w1]. destruct (below p (n - 1) 0) as [v2 w2].
    cbn [fst snd] in HV, Hw1, Hw2 |- * .
    apply finite_mul_inv in HV. destruct HV as [HV Hr].
    apply finite_sub_inv in HV. destruct HV as [HA HB].
    apply finite_mul_inv in HA. destruct HA as [HA _].
    apply finite_mul_inv in HB. destruct HB as [HB _].
    apply zero_mul_finite_is_zero; [|exact Hr].
    apply is_zero_sub; apply finite_mul_zero; assumption.
Qed.

Lemma index_order1 (d o : Z) :
  in_domain d o -> 1 <= o -> NMAX + 1 <= ConstModel.index d o.
Proof.
  intros (H0 & H1 & H2) Ho. assert (Hi := index_double d o). unfold NMAX in * . nia.
Qed.

Lemma nth_agree (l1 l2 : list F32.t) (i : nat) :
  length l1 = length l2 -> nth_error l1 i = nth_error l2 i ->
  nth i l1 F32.zero = nth i l2 F32.zero.
Proof.
  intros Hl He. destruct (Nat.lt_ge_cases i (length l1)) as [Hi|Hi].
  - rewrite (nth_error_nth' l1 F32.zero Hi) in He.
    rewrite (nth_error_nth' l2 F32.zero) in He by lia. congruence.
  - rewrite !nth_overflow by lia. reflexivity.
Qed.

Lemma flat_map_same {A B : Type} (fa fb : A -> list B) (l : list A) :
  (forall v, In v l -> fa v = fb v) -> flat_map fa l = flat_map fb l.
Proof.
  induction l as [|v l IH]; intros H; cbn [flat_map]; [reflexivity|].
  rewrite (H v) by (left; reflexivity). f_equal.
  apply IH. intros u Hu. apply H. right. exact Hu.
Qed.

Section Order0.

Variables W1 W2 : ConstModel.
Variable t : F32.t.
Variable p : Vector.
Hypothesis Hwf1 : wf_model W1.
Hypothesis Hwf2 : wf_model W2.
Hypothesis Hsame : same_but_order0_sines W1 W2.
Hypothesis Hp : finite_table p.
Hypothesis Hfin1 : finite_order0_sines W1 t.
Hypothesis Hfin2 : finite_order0_sines W2 t.

Lemma valueC_same (d o : Z) : valueC W1 d o t = valueC W2 d o t.
Proof.
  destruct Hsame as (He & HC & HvC & _). unfold valueC. rewrite He, HC, HvC. reflexivity.
Qed.

Lemma valueS_same (d o : Z) :
  in_domain d o -> 1 <= o -> valueS W1 d o t = valueS W2 d o t.
Proof.
  intros Hd Ho. assert (Hi := index_order1 d o Hd Ho).
  destruct Hsame as (He & _ & _ & HS & HvS).
  destruct Hwf1 as (_ & L1 & _ & L1'). destruct Hwf2 as (_ & L2 & _ & L2').
  unfold valueS, coefficient. rewrite He.
  rewrite (nth_agree (Main_Field_Coeff_S W1) (Main_Field_Coeff_S W2)),
          (nth_agree (Secular_Var_Coeff_S W1) (Secular_Var_Coeff_S W2));
    try reflexivity; try congruence; first [apply HS | apply HvS]; lia.
Qed.

Lemma px_terms_same (n m : Z) (v w : F32.t) :
  visited n m -> px_terms W1 t n m v w = px_terms W2 t n m v w.
Proof.
  intros Hv. unfold px_terms. rewrite !valueC_same.
  destruct (raise_guard n m) eqn:E1; [destruct (raise_reads n m Hv E1) as [_ D1];
    rewrite (valueS_same _ _ D1) by (unfold visited in Hv; lia)|];
  (destruct (lower_guard n m) eqn:E2; [destruct (lower_reads n m Hv E2) as [_ D2];
    rewrite (valueS_same _ _ D2) by (unfold lower_guard in E2; lia)|]);
  reflexivity.
Qed.

Lemma py_terms_same (n m : Z) (v w : F32.t) :
  visited n m -> py_terms W1 t n m v w = py_terms W2 t n m v w.
Proof.
  intros Hv. unfold py_terms. rewrite !valueC_same.
  destruct (raise_guard n m) eqn:E1; [destruct (raise_reads n m Hv E1) as [_ D1];
    rewrite (valueS_same _ _ D1) by (unfold visited in Hv; lia)|];
  (destruct (lower_guard n m) eqn:E2; [destruct (lower_reads n m Hv E2) as [_ D2];
    rewrite (valueS_same _ _ D2) by (unfold lower_guard in E2; lia)|]);
  reflexivity.
Qed.

Lemma order0_sine_finite (WMM : ConstModel) (d : Z) :
  finite_order0_sines WMM t -> 0 <= d <= NMAX ->
  F32.is_finite (valueS WMM d 0 t) = true.
Proof.
  unfold finite_order0_sines. intros H Hd. rewrite forallb_forall in H.
  apply H, in_zrange. unfold NMAX in * . lia.
Qed.

Lemma pz_terms_order0 (n m : Z) :
  visited n m ->
  Forall2 F32.sim (pz_terms W1 t n m (V p n m) (W p n m))
                  (pz_terms W2 t n m (V p n m) (W p n m)).
Proof.
  intros Hv. unfold pz_terms. rewrite !valueC_same.
  destruct (vertical_guard n m) eqn:E; [|constructor].
  destruct (vertical_reads n m Hv E) as [Hd D].
  apply Forall2_cons; [|apply Forall2_nil].
  destruct (Z.eq_dec m 0) as [->|Hm].
  - apply sim_mul; [apply sim_refl|]. apply sim_sub; [apply sim_refl|].
    assert (Hw : F32.is_zero (W p n 0) = true).
    { apply (W_order0_zero p (Z.to_nat n) Hp); unfold visited in Hv; lia. }
    right. split; apply finite_mul_zero; try exact Hw;
      apply order0_sine_finite; try assumption; unfold in_domain in D; lia.
  - rewrite (valueS_same _ _ D) by (unfold visited in Hv; lia). apply sim_refl.
Qed.

Lemma order0_sums :
  x (GeoMag_sums t p W1) = x (GeoMag_sums t p W2) /\
  y (GeoMag_sums t p W1) = y (GeoMag_sums t p W2) /\
  F32.sim (z (GeoMag_sums t p W1)) (z (GeoMag_sums t p W2)).
Proof.
  unfold GeoMag_sums, gradient_sum. cbn [x y z]. split; [|split].
  - do 3 f_equal. apply flat_map_same. intros nm Hnm.
    apply px_terms_same, traversal_visited, Hnm.
  - do 3 f_equal. apply flat_map_same. intros nm Hnm.
    apply py_terms_same, traversal_visited, Hnm.
  - apply sim_mul; [|apply sim_refl]. apply sim_neg.
    apply fold_add_sim; [|apply sim_refl]. apply flat_map_sim.
    intros nm Hnm. apply pz_terms_order0, traversal_visited, Hnm.
Qed.

End Order0.

(** X12.  The sine coefficients of order 0 are read but never count: at
    a position where the table values are finite the [W] scalar of the
    column [m = 0] stays a zero, and two stores that differ only in the sine
    entries of order 0, whose time-corrected values are finite, give the
    same [x] and [y] components and [z] components equal up to the sign of
    a zero. *)
Theorem order0_sines_do_not_count (t : F32.t) (p : Vector) (W1 W2 : ConstModel) :
  wf_model W1 -> wf_model W2 -> same_but_order0_sines W1 W2 ->
  finite_table p -> finite_order0_sines W1 t -> finite_order0_sines W2 t ->
  (forall n, 0 <= n <= NMAX + 1 -> F32.is_zero (W p n 0) = true) /\
  exists r1 r2,
    GeoMag t p W1 = Some r1 /\ GeoMag t p W2 = Some r2 /\
    x r1 = x r2 /\ y r1 = y r2 /\ F32.sim (z r1) (z r2).
Proof.
  intros Hwf1 Hwf2 Hsame Hp H1 H2. split.
  - intros n Hn. apply (W_order0_zero p (Z.to_nat n) Hp n Hn). lia.
  - exists (GeoMag_sums t p W1), (GeoMag_sums t p W2).
    split; [apply GeoMag_defined, Hwf1|]. split; [apply GeoMag_defined, Hwf2|].
    apply order0_sums; assumption.
Qed.

Lemma order0_sines_do_not_count_witness :
  wf_model sample_model /\ wf_model sample_model_order0 /\
  same_but_order0_sines sample_model sample_model_order0 /\
  finite_table sample_position /\
  finite_order0_sines sample_model sample_year /\
  finite_order0_sines sample_model_order0 sample_year /\
  exists r1 r2,
    GeoMag sample_year sample_position sample_model = Some r1 /\
    GeoMag sample_year sample_position sample_model_order0 = Some r2 /\
    x r1 = x r2 /\ y r1 = y r2 /\ F32.sim (z r1) (z r2).
Proof.
  assert (Hwf1 : wf_model sample_model) by (repeat split).
  assert (Hwf2 : wf_model sample_model_order0) by (repeat split).
  assert (Hsame : same_but_order0_sines sample_model sample_model_order0).
  { split; [reflexivity|]. split; [reflexivity|]. split; [reflexivity|].
    split; intros i Hi; do 13 (destruct i as [|i]; [cbn in Hi; lia|]); reflexivity. }
  assert (Hp : finite_table sample_position) by (vm_compute; reflexivity).
  assert (H1 : finite_order0_sines sample_model sample_year) by (vm_compute; reflexivity).
  assert (H2 : finite_order0_sines sample_model_order0 sample_year)
    by (vm_compute; reflexivity).
  do 6 (split; [assumption|]).
  exact (proj2 (order0_sines_do_not_count sample_year sample_position
                  sample_model sample_model_order0 Hwf1 Hwf2 Hsame Hp H1 H2)).
Defined.
